(** * Product Fairy: the client-side generation state machine

    A shallow embedding of [frontend/src/App.jsx] (the React component that
    drives batch image generation, session recovery and per-image
    regeneration), of [frontend/src/lib/imageDb.js] (the IndexedDB image
    store keyed by filename) and of the download name built in
    [frontend/src/components/ImageGallery.jsx].

    React state is modelled by explicit state passing: every handler is a
    function from the component state to the next state together with the
    list of HTTP requests it issues.  A handler reads the values of the
    latest render, which the model identifies with the current state.
    Asynchronous handlers are split at their suspension points (begin /
    stream event / settle). *)

From Stdlib Require Import Ascii String.
From stdpp Require Import gmap strings list.
From stdpp Require Import sorting pretty.

Local Open Scope string_scope.

(** ** JavaScript values used by the handlers *)

Module Js.

(** A property that may be missing: [None] is [undefined]/[null]. *)
Definition truthy (o : option string) : bool :=
  match o with
  | Some s => negb (String.eqb s "")
  | None => false
  end.

(** [a || b] on optional strings. *)
Definition or (a b : option string) : option string :=
  if truthy a then a else b.

(** [a || 'lit'] where the right operand is a string literal. *)
Definition or_lit (a : option string) (lit : string) : string :=
  match a with
  | Some s => if String.eqb s "" then lit else s
  | None => lit
  end.

(** [s.replace(/-/g, '')]: every hyphen-minus is dropped. *)
Fixpoint replace_hyphens (s : string) : string :=
  match s with
  | EmptyString => EmptyString
  | String c r =>
      if Ascii.eqb c "-"%char then replace_hyphens r
      else String c (replace_hyphens r)
  end.

(** A string holds the UTF-8 bytes of the JavaScript text. *)
Definition is_byte (n : nat) (c : ascii) : bool := (nat_of_ascii c =? n)%nat.

(** The white space and line terminators [String.prototype.trim] strips.
    One byte: TAB, LF, VT, FF, CR and SPACE. *)
Definition is_space (c : ascii) : bool :=
  let n := nat_of_ascii c in
  ((9 <=? n)%nat && (n <=? 13)%nat) || (n =? 32)%nat.

(** Two bytes: U+00A0. *)
Definition is_space2 (c1 c2 : ascii) : bool :=
  is_byte 194 c1 && is_byte 160 c2.

(** Three bytes: U+1680, U+2000 to U+200A, U+2028, U+2029, U+202F,
    U+205F, U+3000 and U+FEFF. *)
Definition is_space3 (c1 c2 c3 : ascii) : bool :=
  let n3 := nat_of_ascii c3 in
  (is_byte 225 c1 && is_byte 154 c2 && is_byte 128 c3)
  || (is_byte 226 c1 && is_byte 128 c2
      && (((128 <=? n3)%nat && (n3 <=? 138)%nat)
          || is_byte 168 c3 || is_byte 169 c3 || is_byte 175 c3))
  || (is_byte 226 c1 && is_byte 129 c2 && is_byte 159 c3)
  || (is_byte 227 c1 && is_byte 128 c2 && is_byte 128 c3)
  || (is_byte 239 c1 && is_byte 187 c2 && is_byte 191 c3).

Fixpoint trim_start (s : string) : string :=
  match s with
  | EmptyString => EmptyString
  | String c r =>
      if is_space c then trim_start r
      else
        match r with
        | EmptyString => s
        | String c2 r2 =>
            if is_space2 c c2 then trim_start r2
            else
              match r2 with
              | EmptyString => s
              | String c3 r3 =>
                  if is_space3 c c2 c3 then trim_start r3 else s
              end
        end
  end.

(** Everything from the first character on that only white space
    follows is dropped. *)
Fixpoint trim_end (s : string) : string :=
  match s with
  | EmptyString => EmptyString
  | String c r =>
      if String.eqb (trim_start s) "" then EmptyString
      else String c (trim_end r)
  end.

Definition trim (s : string) : string := trim_end (trim_start s).

(** [!s] for a string [s]. *)
Definition not_str (s : string) : bool := String.eqb s "".

End Js.

(** ** Variant records and the filename key *)

(** A product row as handled by the store builder ([ProductTable.handleAdd]
    lists the fields).  Each field may be missing; a value that is not a
    string is represented by the string [String(...)] makes of it. *)
Record Product := mkProduct {
  ProductNumber : option string;
  ProductName : option string;
  GenderCode : option string;
  ColorCode : option string;
  ColorName : option string
}.

#[global] Instance Product_eq_dec : EqDecision Product.
Proof. solve_decision. Defined.

(** The body of the filter callback in [handleResume]:
    [pn = String(p.ProductNumber || '').replace(/-/g, '')] and
    [fn = `${pn}${p.GenderCode || 'U'}${p.ColorCode || ''}`]. *)
Definition resumeFilename (p : Product) : string :=
  let pn := Js.replace_hyphens (Js.or_lit (ProductNumber p) "") in
  pn +:+ Js.or_lit (GenderCode p) "U" +:+ Js.or_lit (ColorCode p) "".

(** [ImageGallery.handleDownloadSingle]: [`${image.filename}.jpg`]. *)
Definition downloadName (filename : string) : string :=
  filename +:+ ".jpg".

(** The triple the data model uses as grouping and filename key. *)
Definition keyTriple (p : Product) : option string * option string * option string :=
  (ProductNumber p, GenderCode p, ColorCode p).

(** ** The filename format in the words of the specification *)

Module SpecFormat.

Definition is_alnum (c : ascii) : bool :=
  let n := nat_of_ascii c in
  ((48 <=? n)%nat && (n <=? 57)%nat)
  || ((65 <=? n)%nat && (n <=? 90)%nat)
  || ((97 <=? n)%nat && (n <=? 122)%nat).

Fixpoint strip_non_alnum (s : string) : string :=
  match s with
  | EmptyString => EmptyString
  | String c r =>
      if is_alnum c then String c (strip_non_alnum r) else strip_non_alnum r
  end.

(** The format as the specification words it (the backend that names the
    output files, [backend/main.py], is not among the sources): product
    number with every non-alphanumeric character removed, then the gender
    code (neutral code [U] when absent), then the colour code (empty when
    absent), then the image extension. *)
Definition derive (p : Product) : string :=
  strip_non_alnum (default "" (ProductNumber p))
    +:+ default "U" (GenderCode p)
    +:+ default "" (ColorCode p)
    +:+ ".jpg".

End SpecFormat.

(** Every character of [s] satisfies [f]. *)
Fixpoint string_forallb (f : ascii -> bool) (s : string) : bool :=
  match s with
  | EmptyString => true
  | String c r => f c && string_forallb f r
  end.

(** Characters a product number may contain for the two stripping
    functions to agree. *)
Definition alnum_or_hyphen (c : ascii) : bool :=
  SpecFormat.is_alnum c || Ascii.eqb c "-"%char.

(** The three pieces [resumeFilename] concatenates. *)
Definition strippedNumber (p : Product) : string :=
  Js.replace_hyphens (Js.or_lit (ProductNumber p) "").

Definition effectiveGender (p : Product) : string :=
  Js.or_lit (GenderCode p) "U".

Definition effectiveColor (p : Product) : string :=
  Js.or_lit (ColorCode p) "".

Definition normalTriple (p : Product) : string * string * string :=
  (strippedNumber p, effectiveGender p, effectiveColor p).

(** The record with its three key fields replaced by the pieces the
    derivation reads off them. *)
Definition normalised (p : Product) : Product :=
  mkProduct (Some (strippedNumber p)) (ProductName p)
            (Some (effectiveGender p)) (Some (effectiveColor p)) (ColorName p).

(** All gender codes of the list have one length, and so have all colour
    codes (as in [M]/[F]/[U] and [NAV]/[WHT]/[BLK]). *)
Definition uniformCodes (L : list Product) : Prop :=
  ∀ p q, p ∈ L → q ∈ L →
    String.length (effectiveGender p) = String.length (effectiveGender q)
    ∧ String.length (effectiveColor p) = String.length (effectiveColor q).

(** The key in plain terms, read off the record without the helpers of
    the code: the characters of the product number other than hyphens (none
    when the number is missing), then the gender code ([U] when it is
    missing or empty), then the colour code (nothing when it is missing);
    no extension. *)
Definition keyInWords (p : Product) : string :=
  string_of_list_ascii
    (filter (λ c, c ≠ "-"%char)
       (list_ascii_of_string (default "" (ProductNumber p))))
  +:+ match GenderCode p with
      | Some g => if decide (g = "") then "U" else g
      | None => "U"
      end
  +:+ default "" (ColorCode p).

(** ** Resume computation *)

(** [handleResume], lines building [completedSet] and [remaining]. *)
Definition remainingProducts (completedFilenames : list string)
    (products : list Product) : list Product :=
  let completedSet : gset string := list_to_set completedFilenames in
  filter (λ p, resumeFilename p ∉ completedSet) products.

(** ** Running example of the README *)

Definition polo_navy : Product :=
  mkProduct (Some "CNC-P1000") (Some "Performance Polo") (Some "M")
            (Some "NAV") (Some "Navy").

Definition polo_white : Product :=
  mkProduct (Some "CNC-P1000") (Some "Performance Polo") (Some "M")
            (Some "WHT") (Some "White").

(** Product numbers that differ from [polo_navy] in punctuation only. *)
Definition polo_navy_underscore : Product :=
  mkProduct (Some "CNC_P1000") (Some "Performance Polo") (Some "M")
            (Some "NAV") (Some "Navy").

Definition polo_navy_plain : Product :=
  mkProduct (Some "CNCP1000") (Some "Performance Polo") (Some "M")
            (Some "NAV") (Some "Navy").

(** Two rows whose pieces differ but concatenate to the same text. *)
Definition tee_unisex_navy : Product :=
  mkProduct (Some "CNC-P100") (Some "Tee") (Some "U") (Some "NAV") (Some "Navy").

Definition tee_shifted : Product :=
  mkProduct (Some "CNC-P100U") (Some "Tee") (Some "N") (Some "AV") (Some "Avocado").

(** Two rows that differ only in whether the gender code is given. *)
Definition cap_no_gender : Product :=
  mkProduct (Some "CNC-P200") (Some "Cap") None (Some "BLK") (Some "Black").

Definition cap_unisex : Product :=
  mkProduct (Some "CNC-P200") (Some "Cap") (Some "U") (Some "BLK") (Some "Black").

(** ** Generated images and the IndexedDB store *)

(** The object built in the [image] case of the stream switch. *)
Record Image := mkImage {
  filename : string;
  productName : string;
  colorName : string;
  productNumber : string;
  genderCode : string;
  colorCode : string;
  prompt : option string;
  data : string
}.

#[global] Instance Image_eq_dec : EqDecision Image.
Proof. solve_decision. Defined.

(** [{ ...image, filename }] *)
Definition with_filename (f : string) (i : Image) : Image :=
  mkImage f (productName i) (colorName i) (productNumber i) (genderCode i)
          (colorCode i) (prompt i) (data i).

(** [lib/imageDb.js]: an object store with [keyPath: 'filename']; [put]
    inserts or overwrites the record stored under the key. *)
Module ImageDb.

Definition saveImage (image : Image) (db : gmap string Image) : gmap string Image :=
  <[filename image := image]> db.

Definition replaceImage (f : string) (newImage : Image)
    (db : gmap string Image) : gmap string Image :=
  <[f := with_filename f newImage]> db.

Definition clearAllImages (db : gmap string Image) : gmap string Image := ∅.

End ImageDb.

(** ** Session record kept under [pf-generation-session] *)

Module Session.

Record t := mk {
  products : option (list Product);
  photoStyle : option string;
  completedFilenames : list string;
  totalCount : nat;
  mode : string
}.

(** [{ ...prev, completedFilenames: [...prev.completedFilenames, f] }] *)
Definition complete (f : string) (prev : t) : t :=
  mk (products prev) (photoStyle prev) (completedFilenames prev ++ [f])
     (totalCount prev) (mode prev).

(** [complete] for each filename of [fs] in turn. *)
Definition completeAll (fs : list string) (prev : t) : t :=
  mk (products prev) (photoStyle prev) (completedFilenames prev ++ fs)
     (totalCount prev) (mode prev).

End Session.

(** ** Component state *)

Record Progress := mkProgress {
  current : nat;
  total : nat;
  product : string
}.

Record Validation := mkValidation {
  valid : bool;
  rowCount : nat
}.

(** The object held by [abortControllerRef.current] while a request is in
    flight. *)
Inductive AbortController := Controller.

(** The [useState]/[useLocalStorage] cells read or written by the handlers
    below, the controller ref, and the IndexedDB store. *)
Record AppState := mkAppState {
  apiKey : string;
  isGenerating : bool;
  progress : Progress;
  images : list Image;
  error : string;
  isComplete : bool;
  abortControllerRef : option AbortController;
  file : option string;
  validation : option Validation;
  generatedProducts : list Product;
  photoStyle : string;
  regeneratingFilename : option string;
  generationSession : option Session.t;
  showResumeBanner : bool;
  imageStore : gmap string Image
}.

Definition set_apiKey (v : string) (st : AppState) : AppState :=
  mkAppState v (isGenerating st) (progress st) (images st) (error st)
    (isComplete st) (abortControllerRef st) (file st) (validation st)
    (generatedProducts st) (photoStyle st) (regeneratingFilename st)
    (generationSession st) (showResumeBanner st) (imageStore st).

Definition set_isGenerating (v : bool) (st : AppState) : AppState :=
  mkAppState (apiKey st) v (progress st) (images st) (error st)
    (isComplete st) (abortControllerRef st) (file st) (validation st)
    (generatedProducts st) (photoStyle st) (regeneratingFilename st)
    (generationSession st) (showResumeBanner st) (imageStore st).

Definition set_progress (v : Progress) (st : AppState) : AppState :=
  mkAppState (apiKey st) (isGenerating st) v (images st) (error st)
    (isComplete st) (abortControllerRef st) (file st) (validation st)
    (generatedProducts st) (photoStyle st) (regeneratingFilename st)
    (generationSession st) (showResumeBanner st) (imageStore st).

Definition set_images (v : list Image) (st : AppState) : AppState :=
  mkAppState (apiKey st) (isGenerating st) (progress st) v (error st)
    (isComplete st) (abortControllerRef st) (file st) (validation st)
    (generatedProducts st) (photoStyle st) (regeneratingFilename st)
    (generationSession st) (showResumeBanner st) (imageStore st).

Definition set_error (v : string) (st : AppState) : AppState :=
  mkAppState (apiKey st) (isGenerating st) (progress st) (images st) v
    (isComplete st) (abortControllerRef st) (file st) (validation st)
    (generatedProducts st) (photoStyle st) (regeneratingFilename st)
    (generationSession st) (showResumeBanner st) (imageStore st).

Definition set_isComplete (v : bool) (st : AppState) : AppState :=
  mkAppState (apiKey st) (isGenerating st) (progress st) (images st)
    (error st) v (abortControllerRef st) (file st) (validation st)
    (generatedProducts st) (photoStyle st) (regeneratingFilename st)
    (generationSession st) (showResumeBanner st) (imageStore st).

Definition set_abortControllerRef (v : option AbortController)
    (st : AppState) : AppState :=
  mkAppState (apiKey st) (isGenerating st) (progress st) (images st)
    (error st) (isComplete st) v (file st) (validation st)
    (generatedProducts st) (photoStyle st) (regeneratingFilename st)
    (generationSession st) (showResumeBanner st) (imageStore st).

Definition set_file (v : option string) (st : AppState) : AppState :=
  mkAppState (apiKey st) (isGenerating st) (progress st) (images st)
    (error st) (isComplete st) (abortControllerRef st) v (validation st)
    (generatedProducts st) (photoStyle st) (regeneratingFilename st)
    (generationSession st) (showResumeBanner st) (imageStore st).

Definition set_validation (v : option Validation) (st : AppState) : AppState :=
  mkAppState (apiKey st) (isGenerating st) (progress st) (images st)
    (error st) (isComplete st) (abortControllerRef st) (file st) v
    (generatedProducts st) (photoStyle st) (regeneratingFilename st)
    (generationSession st) (showResumeBanner st) (imageStore st).

Definition set_generatedProducts (v : list Product) (st : AppState) : AppState :=
  mkAppState (apiKey st) (isGenerating st) (progress st) (images st)
    (error st) (isComplete st) (abortControllerRef st) (file st)
    (validation st) v (photoStyle st) (regeneratingFilename st)
    (generationSession st) (showResumeBanner st) (imageStore st).

Definition set_photoStyle (v : string) (st : AppState) : AppState :=
  mkAppState (apiKey st) (isGenerating st) (progress st) (images st)
    (error st) (isComplete st) (abortControllerRef st) (file st)
    (validation st) (generatedProducts st) v (regeneratingFilename st)
    (generationSession st) (showResumeBanner st) (imageStore st).

Definition set_regeneratingFilename (v : option string) (st : AppState) : AppState :=
  mkAppState (apiKey st) (isGenerating st) (progress st) (images st)
    (error st) (isComplete st) (abortControllerRef st) (file st)
    (validation st) (generatedProducts st) (photoStyle st) v
    (generationSession st) (showResumeBanner st) (imageStore st).

Definition set_generationSession (v : option Session.t) (st : AppState) : AppState :=
  mkAppState (apiKey st) (isGenerating st) (progress st) (images st)
    (error st) (isComplete st) (abortControllerRef st) (file st)
    (validation st) (generatedProducts st) (photoStyle st)
    (regeneratingFilename st) v (showResumeBanner st) (imageStore st).

Definition set_showResumeBanner (v : bool) (st : AppState) : AppState :=
  mkAppState (apiKey st) (isGenerating st) (progress st) (images st)
    (error st) (isComplete st) (abortControllerRef st) (file st)
    (validation st) (generatedProducts st) (photoStyle st)
    (regeneratingFilename st) (generationSession st) v (imageStore st).

Definition set_imageStore (v : gmap string Image) (st : AppState) : AppState :=
  mkAppState (apiKey st) (isGenerating st) (progress st) (images st)
    (error st) (isComplete st) (abortControllerRef st) (file st)
    (validation st) (generatedProducts st) (photoStyle st)
    (regeneratingFilename st) (generationSession st) (showResumeBanner st) v.

(** ** Stream events, requests and settlements *)

(** A parsed [data: ...] line of the event stream, by its [type]. *)
Inductive SseData :=
| SseProgress (cur tot : nat) (label : string)
| SseImage (img : Image)
| SseError (message : string)
| SseComplete
| SseOther.  (* a type without a case, or a line [JSON.parse] rejects *)

#[global] Instance SseData_eq_dec : EqDecision SseData.
Proof. solve_decision. Defined.

(** What a handler sends out. *)
Inductive Effect :=
| PostGenerate (api_key file_name : string)
| PostGenerateFromProducts (api_key : string) (products : list Product)
    (photo_style : string)
| PostRegenerateSingle (api_key product_number product_name gender_code
    color_code color_name : string) (image_prompt : option string)
| Abort.

(** How the awaited request of a batch handler ends: the stream is read to
    its end, or an exception with [name] and [message] reaches [catch]. *)
Inductive Settled :=
| StreamDone
| Rejected (name message : string).

(** How [/api/regenerate-single] ends. *)
Inductive RegenSettled :=
| RegenOk (result_data : string) (result_prompt : option string)
| RegenFailed (message : string).

(** A handler either returns or lets a [TypeError] escape. *)
Inductive Outcome (A : Type) :=
| Returned (a : A)
| TypeError.
Arguments Returned {A} a.
Arguments TypeError {A}.

Definition newline : string := String (ascii_of_nat 10) EmptyString.

(** ** Handlers of [App.jsx] *)

(** [handleCancel] *)
Definition handleCancel (st : AppState) : AppState * list Effect :=
  match abortControllerRef st with
  | Some _ => (set_abortControllerRef None st, [Abort])
  | None => (st, [])
  end.

(** [handleGenerate] up to its [fetch]. *)
Definition handleGenerate_begin (st : AppState) : AppState * list Effect :=
  match file st, validation st with
  | Some f, Some v =>
      if Js.not_str (apiKey st) || negb (valid v) then (st, [])
      else
        let st := set_abortControllerRef (Some Controller) st in
        let st := set_isGenerating true st in
        let st := set_images [] st in
        let st := set_imageStore (ImageDb.clearAllImages (imageStore st)) st in
        let st := set_progress (mkProgress 0 (rowCount v) "") st in
        let st := set_error "" st in
        let st := set_isComplete false st in
        let st := set_showResumeBanner false st in
        let st := set_generationSession
                    (Some (Session.mk None None [] (rowCount v) "csv")) st in
        (st, [PostGenerate (apiKey st) f])
  | _, _ => (st, [])
  end.

(** [handleGenerateImages(productsToGenerate, isResume)] up to its [fetch].
    [productsToGenerate] is [Some] exactly when the argument is an array. *)
Definition handleGenerateImages_begin (productsToGenerate : option (list Product))
    (isResume : bool) (st : AppState) : AppState * list Effect :=
  let products := default (generatedProducts st) productsToGenerate in
  if Js.not_str (apiKey st) || (length products =? 0)%nat
     || Js.not_str (Js.trim (photoStyle st))
  then (st, [])
  else
    let st0 := st in
    let st := set_abortControllerRef (Some Controller) st in
    let st := set_isGenerating true st in
    let st :=
      if isResume then st
      else set_imageStore (ImageDb.clearAllImages (imageStore st))
             (set_images [] st) in
    let st := set_progress (mkProgress 0 (length products) "") st in
    let st := set_error "" st in
    let st := set_isComplete false st in
    let st := set_showResumeBanner false st in
    let st :=
      if isResume then st
      else set_generationSession
             (Some (Session.mk (Some (generatedProducts st0))
                      (Some (photoStyle st0)) []
                      (length (generatedProducts st0)) "store-builder")) st in
    (st, [PostGenerateFromProducts (apiKey st0) products (photoStyle st0)]).

(** The [switch (data.type)] of the stream loop; the two batch handlers
    carry the same switch. *)
Definition onSseData (ev : SseData) (st : AppState) : AppState :=
  match ev with
  | SseProgress c t p => set_progress (mkProgress c t p) st
  | SseImage img =>
      let st := set_images (images st ++ [img]) st in
      let st := set_imageStore (ImageDb.saveImage img (imageStore st)) st in
      set_generationSession
        (match generationSession st with
         | Some prev => Some (Session.complete (filename img) prev)
         | None => None
         end) st
  | SseError message =>
      set_error (if Js.not_str (error st) then message
                 else error st +:+ newline +:+ message) st
  | SseComplete => set_generationSession None (set_isComplete true st)
  | SseOther => st
  end.

(** Events are handled one after the other, in stream order. *)
Definition onSseStream (evs : list SseData) (st : AppState) : AppState :=
  foldl (λ s ev, onSseData ev s) st evs.

(** [catch]/[finally] of the two batch handlers. *)
Definition batch_settle (o : Settled) (st : AppState) : AppState :=
  let st :=
    match o with
    | StreamDone => st
    | Rejected name message =>
        if String.eqb name "AbortError" then st
        else set_error (Js.or_lit (Some message) "Failed to generate images") st
    end in
  set_isGenerating false (set_abortControllerRef None st).

(** [handleRegenerate(filename, image)] up to its [fetch]. *)
Definition handleRegenerate_begin (f : string) (image : Image)
    (st : AppState) : AppState * list Effect :=
  if Js.not_str (apiKey st) || Js.truthy (regeneratingFilename st)
  then (st, [])
  else
    let st0 := st in
    let st := set_regeneratingFilename (Some f) st in
    let st := set_error "" st in
    (st, [PostRegenerateSingle (apiKey st0) (productNumber image)
            (productName image) (genderCode image) (colorCode image)
            (colorName image) (prompt image)]).

(** [{ ...image, data: result.data, prompt: result.prompt || image.prompt }] *)
Definition regenerated (image : Image) (result_data : string)
    (result_prompt : option string) : Image :=
  mkImage (filename image) (productName image) (colorName image)
          (productNumber image) (genderCode image) (colorCode image)
          (Js.or result_prompt (prompt image)) result_data.

(** [prev.map((img) => img.filename === filename ? newImg : img)] *)
Definition replaceInGallery (f : string) (newImg : Image)
    (prev : list Image) : list Image :=
  map (λ img, if String.eqb (filename img) f then newImg else img) prev.

(** The rest of [handleRegenerate] once the request has settled. *)
Definition handleRegenerate_settle (f : string) (image : Image)
    (r : RegenSettled) (st : AppState) : AppState :=
  let st :=
    match r with
    | RegenOk d p =>
        let newImg := regenerated image d p in
        let st := set_images (replaceInGallery f newImg (images st)) st in
        set_imageStore (ImageDb.replaceImage f newImg (imageStore st)) st
    | RegenFailed message =>
        set_error (Js.or_lit (Some message) "Failed to regenerate image") st
    end in
  set_regeneratingFilename None st.

(** [handleResume] *)
Definition handleResume (st : AppState) : Outcome (AppState * list Effect) :=
  match generationSession st with
  | None => Returned (set_showResumeBanner false st, [])
  | Some session =>
      if negb (String.eqb (Session.mode session) "store-builder")
      then Returned (set_showResumeBanner false st, [])
      else
        match Session.products session with
        | None => TypeError
        | Some products =>
            let remaining :=
              remainingProducts (Session.completedFilenames session) products in
            if (length remaining =? 0)%nat
            then Returned (set_generationSession None
                             (set_showResumeBanner false st), [])
            else Returned (handleGenerateImages_begin (Some remaining) true st)
        end
  end.

(** [handleDismissResume] *)
Definition handleDismissResume (st : AppState) : AppState :=
  set_generationSession None (set_showResumeBanner false st).

(** ** Batch runs *)

(** The two ways a batch run is started: [handleGenerate] (CSV upload) and
    [handleGenerateImages(productsToGenerate, isResume)] (store builder). *)
Inductive BatchStart :=
| StartCsv
| StartFromProducts (productsToGenerate : option (list Product)) (isResume : bool).

Definition batch_begin (b : BatchStart) (st : AppState) : AppState * list Effect :=
  match b with
  | StartCsv => handleGenerate_begin st
  | StartFromProducts arg isResume => handleGenerateImages_begin arg isResume st
  end.

(** The filenames carried by the [image] events of a stream, in order. *)
Definition imageFilenames (evs : list SseData) : list string :=
  omap (λ ev, match ev with SseImage img => Some (filename img) | _ => None end) evs.

(** ** Regenerations in flight *)

(** The component together with the regeneration requests that have been
    sent and have not settled yet, oldest first. *)
Record RegenWorld := mkRegenWorld {
  app : AppState;
  inflight : list (string * Image)
}.

Inductive RegenStep :=
| Click (f : string) (image : Image)  (* [onRegenerate(f, image)] *)
| Settle (r : RegenSettled).          (* the oldest pending request settles *)

Definition regenStep (w : RegenWorld) (s : RegenStep) : RegenWorld :=
  match s with
  | Click f image =>
      let '(st, eff) := handleRegenerate_begin f image (app w) in
      mkRegenWorld st
        (match eff with
         | [] => inflight w
         | _ :: _ => inflight w ++ [(f, image)]
         end)
  | Settle r =>
      match inflight w with
      | [] => w
      | (f, image) :: rest =>
          mkRegenWorld (handleRegenerate_settle f image r (app w)) rest
      end
  end.

Definition regenRun (w : RegenWorld) (steps : list RegenStep) : RegenWorld :=
  foldl regenStep w steps.

(** Gallery entries carry a non-empty filename.  The guard of
    [handleRegenerate] tests the marker for truthiness, and the empty
    string is falsy, so a marker is only as good as the filename put in it. *)
Definition namedClick (s : RegenStep) : Prop :=
  match s with
  | Click f _ => f ≠ ""
  | Settle _ => True
  end.

(** What holds between two steps: nothing is in flight and the marker is
    null, or exactly one request is in flight and the marker holds its
    filename. *)
Definition singleSlot (w : RegenWorld) : Prop :=
  (inflight w = [] ∧ regeneratingFilename (app w) = None)
  ∨ (∃ f image, inflight w = [(f, image)]
       ∧ regeneratingFilename (app w) = Some f ∧ f ≠ "").

(** ** Example states *)

(** The initial values of the state cells. *)
Definition initial_state : AppState :=
  mkAppState "" false (mkProgress 0 0 "") [] "" false None None None [] ""
             None None false ∅.

(** Store builder, catalogue approved and photo style chosen. *)
Definition styled_state : AppState :=
  set_photoStyle "flat lay"
    (set_generatedProducts [polo_navy; polo_white]
       (set_apiKey "key" initial_state)).

(** CSV upload, a validated file of two rows. *)
Definition csv_state : AppState :=
  set_validation (Some (mkValidation true 2))
    (set_file (Some "catalog.csv") (set_apiKey "key" initial_state)).

Definition navy_image : Image :=
  mkImage "CNCP1000MNAV" "Performance Polo" "Navy" "CNC-P1000" "M" "NAV"
          (Some "navy polo, flat lay") "base64-navy".

(** An entry whose filename is the empty string. *)
Definition unnamed_image : Image :=
  mkImage "" "Performance Polo" "Black" "" "" ""
          (Some "black polo, flat lay") "base64-black".

Definition white_image : Image :=
  mkImage "CNCP1000MWHT" "Performance Polo" "White" "CNC-P1000" "M" "WHT"
          (Some "white polo, flat lay") "base64-white".

(** The tab was closed after the first of two images had arrived. *)
Definition interrupted_state : AppState :=
  set_showResumeBanner true
    (set_generationSession
       (Some (Session.mk (Some [polo_navy; polo_white]) (Some "flat lay")
                ["CNCP1000MNAV"] 2 "store-builder"))
       styled_state).

(** Both images had arrived but the [complete] event had not. *)
Definition all_done_state : AppState :=
  set_showResumeBanner true
    (set_generationSession
       (Some (Session.mk (Some [polo_navy; polo_white]) (Some "flat lay")
                ["CNCP1000MNAV"; "CNCP1000MWHT"] 2 "store-builder"))
       styled_state).

(** A gallery of two images, the first being regenerated. *)
Definition gallery_state : AppState :=
  set_imageStore
    (ImageDb.saveImage white_image (ImageDb.saveImage navy_image ∅))
    (set_images [navy_image; white_image] styled_state).

(** ** Error text *)

(** [s.split(c)] for a one-character separator. *)
Fixpoint split_char (c : ascii) (s : string) : list string :=
  match s with
  | EmptyString => [EmptyString]
  | String x r =>
      if Ascii.eqb x c then EmptyString :: split_char c r
      else match split_char c r with
           | h :: t => String x h :: t
           | [] => [String x EmptyString]
           end
  end.

(** [error.split('\n')], the lines the error panel renders. *)
Definition errorLines (st : AppState) : list string :=
  split_char (ascii_of_nat 10) (error st).

(** The messages carried by the [error] events of a stream, in order. *)
Definition errorMessages (evs : list SseData) : list string :=
  omap (λ ev, match ev with SseError m => Some m | _ => None end) evs.

(** A message that fits on one line of the panel. *)
Definition oneLine (m : string) : Prop :=
  m ≠ "" ∧ string_forallb (λ x, negb (Ascii.eqb x (ascii_of_nat 10))) m = true.

(** ** Mount effect *)

(** The last part of the mount effect.  [parsed] is what
    [JSON.parse(localStorage.getItem('pf-generation-session'))] yields:
    [None] when the item is missing, is [null], or makes the [try] block
    throw. *)
Definition mount_detectSession (parsed : option Session.t)
    (st : AppState) : AppState :=
  match parsed with
  | Some session =>
      if String.eqb (Session.mode session) "store-builder"
         && (length (Session.completedFilenames session)
               <? Session.totalCount session)%nat
      then set_showResumeBanner true st
      else st
  | None => st
  end.

(** The callback of [loadAllImages().then(...)] in the mount effect. *)
Definition mount_imagesLoaded (stored : list Image) (st : AppState) : AppState :=
  if (0 <? length stored)%nat
  then set_isComplete true (set_images stored st)
  else st.

(** A start that creates its session record: every start but the one
    [handleResume] makes. *)
Definition freshStart (b : BatchStart) : Prop :=
  match b with
  | StartFromProducts _ true => False
  | _ => True
  end.

(** ** The image store as a whole *)

(** Keys of the object store are compared as strings. *)
Definition key_le (a b : string * Image) : Prop := String.leb a.1 b.1 = true.

#[global] Instance key_le_dec (a b : string * Image) : Decision (key_le a b).
Proof. unfold key_le. apply _. Defined.

(** [loadAllImages]: [getAll] returns the records in ascending key order. *)
Definition loadAllImages (db : gmap string Image) : list Image :=
  (merge_sort key_le (map_to_list db)).*2.

(** The three writing operations [lib/imageDb.js] exports. *)
Inductive DbOp :=
| DbSave (image : Image)
| DbReplace (f : string) (newImage : Image)
| DbClear.

Definition dbApply (db : gmap string Image) (op : DbOp) : gmap string Image :=
  match op with
  | DbSave image => ImageDb.saveImage image db
  | DbReplace f newImage => ImageDb.replaceImage f newImage db
  | DbClear => ImageDb.clearAllImages db
  end.

Definition dbRun (ops : list DbOp) (db : gmap string Image) : gmap string Image :=
  foldl dbApply db ops.

(** Every record sits under its own filename. *)
Definition keyed (db : gmap string Image) : Prop :=
  ∀ k img, db !! k = Some img → filename img = k.

(** What saving the gallery entries one after the other leaves in an empty
    store. *)
Definition galleryIndex (imgs : list Image) : gmap string Image :=
  foldl (λ db img, ImageDb.saveImage img db) ∅ imgs.

(** The store holds what the gallery shows. *)
Definition agrees (st : AppState) : Prop :=
  imageStore st = galleryIndex (images st).

(** [handlePushToShopify], the loop that builds [imagesMap]:
    [imagesMap[img.filename] = img.data] for each gallery entry in turn. *)
Definition imagesMap (imgs : list Image) : gmap string string :=
  foldl (λ m img, <[filename img := data img]> m) ∅ imgs.

(** The gallery asks to regenerate an entry under the entry's own
    filename: [onRegenerate(image.filename, image)]. *)
Definition fromGallery (s : RegenStep) : Prop :=
  match s with
  | Click f image => filename image = f
  | Settle _ => True
  end.

(** ** Shopify CSV export ([lib/shopifyCsv.js]) *)

Module ShopifyCsv.

Definition dquote : ascii := ascii_of_nat 34.
Definition comma : ascii := ascii_of_nat 44.
Definition lf : ascii := ascii_of_nat 10.
Definition cr : ascii := ascii_of_nat 13.

(** [str.includes(c)] for a one-character [c]. *)
Fixpoint includes (c : ascii) (str : string) : bool :=
  match str with
  | EmptyString => false
  | String x r => Ascii.eqb x c || includes c r
  end.

(** The [replace] of [csvEscape]: every double quote is written twice. *)
Fixpoint double_quotes (str : string) : string :=
  match str with
  | EmptyString => EmptyString
  | String x r =>
      if Ascii.eqb x dquote then String dquote (String dquote (double_quotes r))
      else String x (double_quotes r)
  end.

(** [csvEscape(value)]; [value ?? ''] turns a missing value into the
    empty string. *)
Definition csvEscape (value : option string) : string :=
  let str := default "" value in
  if includes dquote str || includes comma str || includes lf str
     || includes cr str
  then String dquote (double_quotes str +:+ String dquote EmptyString)
  else str.

(** How often [c] occurs in [s]. *)
Fixpoint count_char (c : ascii) (s : string) : nat :=
  match s with
  | EmptyString => 0
  | String x r => (if Ascii.eqb x c then 1 else 0) + count_char c r
  end.

(** [toLowerCase] of one ASCII character. *)
Definition to_lower (c : ascii) : ascii :=
  let n := nat_of_ascii c in
  if (65 <=? n)%nat && (n <=? 90)%nat then ascii_of_nat (n + 32) else c.

(** [toLowerCase] as far as [slugify] can tell.  The letters [A]-[Z]
    are lowered; so are the two characters outside ASCII whose lower-case
    form holds an ASCII letter: U+0130 (bytes 196 176) becomes [i]
    followed by U+0307 (bytes 204 135), and U+212A (bytes 226 132 170)
    becomes [k].  Every other character outside ASCII is left as it is:
    its lower-case form lies outside ASCII as well, and [slugify] replaces
    either by a hyphen. *)
Fixpoint toLowerCase (s : string) : string :=
  match s with
  | EmptyString => EmptyString
  | String c r =>
      match r with
      | EmptyString => String (to_lower c) EmptyString
      | String c2 r2 =>
          if Js.is_byte 196 c && Js.is_byte 176 c2
          then String "i"%char
                 (String (ascii_of_nat 204)
                    (String (ascii_of_nat 135) (toLowerCase r2)))
          else
            match r2 with
            | EmptyString => String (to_lower c) (toLowerCase r)
            | String c3 r3 =>
                if Js.is_byte 226 c && Js.is_byte 132 c2 && Js.is_byte 170 c3
                then String "k"%char (toLowerCase r3)
                else String (to_lower c) (toLowerCase r)
            end
      end
  end.

(** The class [[a-z0-9]]. *)
Definition is_slug_char (c : ascii) : bool :=
  let n := nat_of_ascii c in
  ((97 <=? n)%nat && (n <=? 122)%nat) || ((48 <=? n)%nat && (n <=? 57)%nat).

(** [s.replace(/[^a-z0-9]+/g, '-')]: every maximal run of characters
    outside the class becomes one hyphen.  [inrun] tells that the character
    before belongs to such a run. *)
Fixpoint dash_runs (inrun : bool) (s : string) : string :=
  match s with
  | EmptyString => EmptyString
  | String c r =>
      if is_slug_char c then String c (dash_runs false r)
      else if inrun then dash_runs true r
      else String "-"%char (dash_runs true r)
  end.

(** The alternative [^-+] of the second replacement. *)
Fixpoint drop_leading_dashes (s : string) : string :=
  match s with
  | EmptyString => EmptyString
  | String c r => if Ascii.eqb c "-"%char then drop_leading_dashes r else s
  end.

(** The alternative [-+$] of the second replacement. *)
Fixpoint drop_trailing_dashes (s : string) : string :=
  match s with
  | EmptyString => EmptyString
  | String c r =>
      let r' := drop_trailing_dashes r in
      if Ascii.eqb c "-"%char && String.eqb r' "" then EmptyString
      else String c r'
  end.

(** [slugify(text)] *)
Definition slugify (text : string) : string :=
  drop_trailing_dashes
    (drop_leading_dashes (dash_runs false (toLowerCase text))).

(** A handle: letters and digits in groups separated by single hyphens.
    [afterDash] tells that the character before is a hyphen (or that the
    text starts here). *)
Fixpoint handle_body (afterDash : bool) (s : string) : bool :=
  match s with
  | EmptyString => negb afterDash
  | String c r =>
      if is_slug_char c then handle_body false r
      else Ascii.eqb c "-"%char && negb afterDash && handle_body true r
  end.

Definition is_handle (s : string) : bool :=
  String.eqb s "" || handle_body true s.

(** As [handle_body], but the text may end in a hyphen. *)
Fixpoint dashes_apart (afterDash : bool) (s : string) : bool :=
  match s with
  | EmptyString => true
  | String c r =>
      if is_slug_char c then dashes_apart false r
      else Ascii.eqb c "-"%char && negb afterDash && dashes_apart true r
  end.

(** [groups.has(key)], [groups.set(key, [])] and [groups.get(key).push(p)]
    on a [Map], which iterates in insertion order. *)
Fixpoint group_push (key : option string) (p : Product)
    (groups : list (option string * list Product))
    : list (option string * list Product) :=
  match groups with
  | [] => [(key, [p])]
  | (k, variants) :: rest =>
      if decide (k = key) then (k, (variants ++ [p])%list) :: rest
      else (k, variants) :: group_push key p rest
  end.

(** [groupByProductNumber(products)] *)
Definition groupByProductNumber (products : list Product)
    : list (option string * list Product) :=
  foldl (λ groups p, group_push (ProductNumber p) p groups) [] products.

(** The calls [buildRow(variant, brand, i === 0, variants)] that
    [generateShopifyCsv] makes, in order: the variant, the product-row
    flag and the variants of its group. *)
Definition rowCalls (products : list Product)
    : list (Product * bool * list Product) :=
  '(_, variants) ← groupByProductNumber products;
  imap (λ i variant, (variant, bool_decide (i = 0), variants)) variants.

(** The product numbers of a catalogue, each once, in order of first
    appearance. *)
Definition firstAppearances (products : list Product) : list (option string) :=
  reverse (remove_dups (reverse (ProductNumber <$> products))).

End ShopifyCsv.

(** ** Product table ([components/ProductTable.jsx]) *)

Module ProductTable.

(** [s.padStart(targetLength, padString)] *)
Definition padStart (targetLength : nat) (padString s : string) : string :=
  let len := String.length s in
  if (targetLength <=? len)%nat || String.eqb padString "" then s
  else
    let missing := targetLength - len in
    String.substring 0 missing (String.concat "" (replicate missing padString))
      +:+ s.

(** [products.filter((_, i) => i !== index)], [i] counting from [from]. *)
Fixpoint filter_index_ne (index from : nat) (products : list Product)
    : list Product :=
  match products with
  | [] => []
  | p :: rest =>
      if (from =? index)%nat then filter_index_ne index (S from) rest
      else p :: filter_index_ne index (S from) rest
  end.

(** [handleDelete(index)] *)
Definition handleDelete (index : nat) (products : list Product) : list Product :=
  filter_index_ne index 0 products.

(** The row [handleAdd] builds. *)
Definition newProduct (products : list Product) : Product :=
  let nextNumber := length products + 1 in
  mkProduct (Some ("PROD-" +:+ padStart 3 "0" (pretty nextNumber)))
            (Some "") (Some "U") (Some "") (Some "").

(** [handleAdd()] *)
Definition handleAdd (products : list Product) : list Product :=
  (products ++ [newProduct products])%list.

Definition is_digit (c : ascii) : bool :=
  let n := nat_of_ascii c in (48 <=? n)%nat && (n <=? 57)%nat.

End ProductTable.

(** * Properties *)

(** ** Strings *)

Section StringFacts.

Lemma append_nil_l (b : string) : "" +:+ b = b.
Proof. reflexivity. Qed.

Lemma append_cons (x : ascii) (a b : string) :
  String x a +:+ b = String x (a +:+ b).
Proof. reflexivity. Qed.

Lemma append_assoc (a b c : string) : (a +:+ b) +:+ c = a +:+ b +:+ c.
Proof.
  induction a as [|x a IH]; [done|]. by rewrite !append_cons, IH.
Qed.

Lemma length_append (a b : string) :
  String.length (a +:+ b) = String.length a + String.length b.
Proof.
  induction a as [|x a IH]; [done|]. rewrite append_cons; simpl.
  by rewrite IH.
Qed.

Lemma append_inj_prefix (a a' b b' : string) :
  String.length a = String.length a' →
  a +:+ b = a' +:+ b' → a = a' ∧ b = b'.
Proof.
  revert a'. induction a as [|x a IH]; intros [|x' a'] Hlen Heq;
    try discriminate Hlen.
  - done.
  - rewrite !append_cons in Heq.
    injection Heq as -> Heq. injection Hlen as Hlen.
    destruct (IH a' Hlen Heq) as [-> ->]. done.
Qed.

Lemma append_inj_suffix (a a' b b' : string) :
  String.length b = String.length b' →
  a +:+ b = a' +:+ b' → a = a' ∧ b = b'.
Proof.
  intros Hlen Heq. apply append_inj_prefix; [|done].
  apply (f_equal String.length) in Heq. rewrite !length_append in Heq. lia.
Qed.

Lemma replace_hyphens_idemp (s : string) :
  Js.replace_hyphens (Js.replace_hyphens s) = Js.replace_hyphens s.
Proof.
  induction s as [|c s IH]; simpl; [done|].
  destruct (Ascii.eqb c "-") eqn:E; simpl; [done|]. by rewrite E, IH.
Qed.

Lemma hyphen_not_alnum (c : ascii) :
  Ascii.eqb c "-" = true → SpecFormat.is_alnum c = false.
Proof. intros ->%Ascii.eqb_eq. reflexivity. Qed.

(** On product numbers made of letters, digits and hyphens, dropping the
    hyphens and dropping everything that is not a letter or digit agree. *)
Lemma replace_hyphens_strip_non_alnum (s : string) :
  string_forallb alnum_or_hyphen s = true →
  Js.replace_hyphens s = SpecFormat.strip_non_alnum s.
Proof.
  induction s as [|c s IH]; simpl; [done|].
  intros [Hc Hs]%andb_prop. rewrite (IH Hs). unfold alnum_or_hyphen in Hc.
  destruct (Ascii.eqb c "-") eqn:E.
  - by rewrite (hyphen_not_alnum c E).
  - rewrite orb_false_r in Hc. by rewrite Hc.
Qed.

Lemma or_lit_default_empty (o : option string) :
  Js.or_lit o "" = default "" o.
Proof. destruct o as [s|]; simpl; [|done]. by destruct (String.eqb_spec s ""). Qed.

Lemma or_lit_default (o : option string) (lit : string) :
  o ≠ Some "" → Js.or_lit o lit = default lit o.
Proof.
  destruct o as [s|]; simpl; [|done]. intros H.
  destruct (String.eqb_spec s ""); [by subst|done].
Qed.

Lemma or_lit_Some_or_lit (o : option string) (lit : string) :
  Js.or_lit (Some (Js.or_lit o lit)) lit = Js.or_lit o lit.
Proof.
  destruct o as [s|]; simpl.
  - destruct (String.eqb_spec s ""); simpl.
    + by destruct (String.eqb lit "").
    + by destruct (String.eqb_spec s "").
  - by destruct (String.eqb lit "").
Qed.

End StringFacts.

(** ** Filename derivation *)

(** C1, as stated, fails: for productNumber [CNC-P1000], genderCode [M],
    colorCode [NAV] the derivation of the resume computation yields
    [CNCP1000MNAV] with no extension, not the stated [CNCP1000MNAV.jpg];
    and for [CNC_P1000] it keeps the underscore, which the stated format
    removes. *)
Lemma resumeFilename_is_not_spec_format :
  resumeFilename polo_navy = "CNCP1000MNAV"
  ∧ SpecFormat.derive polo_navy = "CNCP1000MNAV.jpg"
  ∧ resumeFilename polo_navy ≠ SpecFormat.derive polo_navy
  ∧ resumeFilename polo_navy_underscore = "CNC_P1000MNAV"
  ∧ SpecFormat.derive polo_navy_underscore = "CNCP1000MNAV.jpg".
Proof. repeat split; done. Qed.

Lemma replace_hyphens_filter (s : string) :
  Js.replace_hyphens s =
    string_of_list_ascii
      (filter (λ c, c ≠ "-"%char) (list_ascii_of_string s)).
Proof.
  induction s as [|c s IH]; [done|]. cbn [Js.replace_hyphens list_ascii_of_string].
  rewrite filter_cons.
  destruct (Ascii.eqb_spec c "-") as [->|Hc].
  - by rewrite decide_False by (intros H; by apply H).
  - rewrite decide_True by done. simpl. by rewrite IH.
Qed.

Lemma resumeFilename_keyInWords (p : Product) : resumeFilename p = keyInWords p.
Proof.
  unfold resumeFilename, keyInWords.
  rewrite replace_hyphens_filter, !or_lit_default_empty. do 2 f_equal.
  destruct (GenderCode p) as [g|]; simpl; [|done].
  destruct (String.eqb_spec g "") as [->|Hg]; [done|].
  by rewrite decide_False.
Qed.

(** C1, amended: the derivation of the resume computation removes the
    hyphens of productNumber and nothing else (an absent productNumber
    counts as empty), appends genderCode ([U] when it is absent or empty)
    and colorCode (nothing when it is absent), and appends no extension.
    For every variant whose productNumber holds only letters, digits and
    hyphens and whose genderCode is not the empty string, it is the stated
    filename without the extension: the name under which the gallery
    downloads it (the key followed by [.jpg]) is the stated filename. *)
Theorem resumeFilename_spec_format_without_extension (p : Product) :
  resumeFilename p = keyInWords p
  ∧ (string_forallb alnum_or_hyphen (default "" (ProductNumber p)) = true →
     GenderCode p ≠ Some "" →
     downloadName (resumeFilename p) = SpecFormat.derive p).
Proof.
  split; [apply resumeFilename_keyInWords|].
  intros Hpn Hg. unfold resumeFilename, downloadName, SpecFormat.derive.
  rewrite !or_lit_default_empty, (or_lit_default _ "U" Hg).
  rewrite (replace_hyphens_strip_non_alnum _ Hpn).
  by rewrite !append_assoc.
Qed.

Lemma resumeFilename_spec_format_without_extension_witness :
  resumeFilename polo_navy = "CNCP1000MNAV"
  ∧ resumeFilename polo_navy_underscore = "CNC_P1000MNAV"
  ∧ resumeFilename cap_no_gender = "CNCP200UBLK"
  ∧ downloadName (resumeFilename polo_navy) = "CNCP1000MNAV.jpg".
Proof.
  split; [exact (proj1 (resumeFilename_spec_format_without_extension polo_navy))|].
  split;
    [exact (proj1 (resumeFilename_spec_format_without_extension
                     polo_navy_underscore))|].
  split;
    [exact (proj1 (resumeFilename_spec_format_without_extension cap_no_gender))|].
  apply (proj2 (resumeFilename_spec_format_without_extension polo_navy));
    [reflexivity | discriminate].
Defined.

(** The derivation reads the record through its normal triple only. *)
Lemma resumeFilename_normalTriple (p : Product) :
  resumeFilename p = strippedNumber p +:+ effectiveGender p +:+ effectiveColor p.
Proof. reflexivity. Qed.

Lemma or_lit_Some_empty (t : string) : Js.or_lit (Some t) "" = t.
Proof. simpl. by destruct (String.eqb_spec t ""). Qed.

Lemma normalTriple_normalised (p : Product) :
  normalTriple (normalised p) = normalTriple p.
Proof.
  unfold normalTriple, normalised, strippedNumber, effectiveGender,
    effectiveColor; cbn [ProductNumber GenderCode ColorCode].
  by rewrite !or_lit_Some_or_lit, or_lit_Some_empty, replace_hyphens_idemp.
Qed.

Lemma normalised_idemp (p : Product) : normalised (normalised p) = normalised p.
Proof.
  pose proof (normalTriple_normalised p) as H. unfold normalTriple in H.
  injection H as Hn Hg Hc.
  unfold normalised at 1. by rewrite Hn, Hg, Hc.
Qed.

Lemma resumeFilename_normalised (p : Product) :
  resumeFilename (normalised p) = resumeFilename p.
Proof.
  rewrite !resumeFilename_normalTriple.
  pose proof (normalTriple_normalised p) as H. unfold normalTriple in H.
  injection H as Hn Hg Hc. by rewrite Hn, Hg, Hc.
Qed.

(** Equal filenames force equal pieces once the code lengths agree. *)
Lemma resumeFilename_pieces (p q : Product) :
  String.length (effectiveGender p) = String.length (effectiveGender q) →
  String.length (effectiveColor p) = String.length (effectiveColor q) →
  resumeFilename p = resumeFilename q →
  normalTriple p = normalTriple q.
Proof.
  intros Hg Hc. rewrite !resumeFilename_normalTriple. intros H.
  apply append_inj_suffix in H as [Hn H].
  - apply append_inj_prefix in H as [Hg' Hc']; [|done].
    unfold normalTriple. by rewrite Hn, Hg', Hc'.
  - rewrite !length_append. lia.
Qed.

(** C3, as stated, fails: [CNC-P1000]/[M]/[NAV] and [CNCP1000]/[M]/[NAV]
    are two variants with different (productNumber, genderCode, colorCode)
    triples, yet both derive [CNCP1000MNAV]; the stated format with its
    extension collides on them as well. *)
Lemma resumeFilename_collision :
  NoDup (keyTriple <$> [polo_navy; polo_navy_plain])
  ∧ polo_navy ≠ polo_navy_plain
  ∧ resumeFilename polo_navy = resumeFilename polo_navy_plain
  ∧ SpecFormat.derive polo_navy = SpecFormat.derive polo_navy_plain.
Proof.
  split; [|repeat split; done].
  apply NoDup_cons. split; [|apply NoDup_singleton].
  rewrite list_elem_of_singleton. discriminate.
Qed.

(** The other two ways distinct triples collide: pieces of different
    lengths that concatenate to the same text, and a missing gender code
    against the explicit default. *)
Lemma resumeFilename_collisions_by_boundary_and_default :
  keyTriple tee_unisex_navy ≠ keyTriple tee_shifted
  ∧ normalTriple tee_unisex_navy ≠ normalTriple tee_shifted
  ∧ resumeFilename tee_unisex_navy = resumeFilename tee_shifted
  ∧ keyTriple cap_no_gender ≠ keyTriple cap_unisex
  ∧ normalTriple cap_no_gender = normalTriple cap_unisex
  ∧ resumeFilename cap_no_gender = resumeFilename cap_unisex.
Proof. repeat split; done. Qed.

(** C3, amended: re-deriving from the normalised record (productNumber
    without hyphens, genderCode or [U], colorCode or empty) gives the same
    filename, and normalising twice is normalising once; over any variant
    list in which no two variants share that normalised triple, all
    effective gender codes have one length and all effective colour codes
    have one length, no two positions derive the same filename. *)
Theorem resumeFilename_injective_on_uniform_lists (L : list Product) :
  NoDup (normalTriple <$> L) →
  uniformCodes L →
  (∀ p, p ∈ L →
     resumeFilename (normalised p) = resumeFilename p
     ∧ normalised (normalised p) = normalised p)
  ∧ (∀ i j p q, L !! i = Some p → L !! j = Some q →
       resumeFilename p = resumeFilename q → i = j).
Proof.
  intros Hnd Hu. split.
  - intros p _. split; [apply resumeFilename_normalised | apply normalised_idemp].
  - intros i j p q Hi Hj Heq.
    destruct (Hu p q) as [Hg Hc];
      [by eapply list_elem_of_lookup_2 | by eapply list_elem_of_lookup_2 |].
    pose proof (resumeFilename_pieces p q Hg Hc Heq) as Ht.
    eapply (NoDup_lookup _ i j (normalTriple p) Hnd).
    + by rewrite list_lookup_fmap, Hi.
    + by rewrite list_lookup_fmap, Hj, Ht.
Qed.

Lemma resumeFilename_injective_on_uniform_lists_witness :
  (∀ p, p ∈ [polo_navy; polo_white] →
     resumeFilename (normalised p) = resumeFilename p
     ∧ normalised (normalised p) = normalised p)
  ∧ (∀ i j p q, [polo_navy; polo_white] !! i = Some p →
       [polo_navy; polo_white] !! j = Some q →
       resumeFilename p = resumeFilename q → i = j).
Proof.
  apply (resumeFilename_injective_on_uniform_lists [polo_navy; polo_white]).
  - apply NoDup_cons. split; [|apply NoDup_singleton].
    rewrite list_elem_of_singleton. discriminate.
  - intros p q Hp Hq.
    apply elem_of_cons in Hp as [->|Hp%list_elem_of_singleton];
    apply elem_of_cons in Hq as [->|Hq%list_elem_of_singleton];
      subst; split; reflexivity.
Defined.

(** ** Resume computation *)

Lemma remainingProducts_filter (C : list string) (L : list Product) :
  remainingProducts C L = filter (λ p, resumeFilename p ∉ C) L.
Proof.
  unfold remainingProducts. induction L as [|p L IH]; [done|].
  rewrite !filter_cons, IH.
  destruct (decide (resumeFilename p ∉ (list_to_set C : gset string))) as [H|H];
    destruct (decide (resumeFilename p ∉ C)) as [H'|H']; try done;
    exfalso; rewrite elem_of_list_to_set in H; done.
Qed.

Lemma sublist_filter_greatest {A} (P : A → Prop) `{!∀ x, Decision (P x)}
    (K L : list A) :
  K `sublist_of` L → Forall P K → K `sublist_of` filter P L.
Proof.
  induction 1 as [|x K L _ IH|x K L _ IH]; intros HK.
  - constructor.
  - apply Forall_cons in HK as [Hx HK].
    rewrite filter_cons_True by done. constructor. by apply IH.
  - rewrite filter_cons. destruct (decide (P x)); [constructor|]; by apply IH.
Qed.

Lemma remainingProducts_keyInWords (C : list string) (L : list Product) :
  remainingProducts C L = filter (λ p, keyInWords p ∉ C) L.
Proof.
  rewrite remainingProducts_filter. apply list_filter_iff. intros p.
  by rewrite resumeFilename_keyInWords.
Qed.

(** C2, as stated, fails: the filename the statement derives for
    [CNC-P1000]/[M]/[NAV] is [CNCP1000MNAV.jpg]; with that filename
    completed the stated sublist is empty, yet the resume computation,
    whose key carries no extension, returns the variant. *)
Lemma remainingProducts_not_by_spec_format :
  SpecFormat.derive polo_navy = "CNCP1000MNAV.jpg"
  ∧ filter (λ p, SpecFormat.derive p ∉ ["CNCP1000MNAV.jpg"]) [polo_navy] = []
  ∧ remainingProducts ["CNCP1000MNAV.jpg"] [polo_navy] = [polo_navy].
Proof. repeat split; reflexivity. Qed.

(** C2, amended: for every completed-filename list [C] of the ledger and
    every variant list [L], the resume computation returns a sublist of [L]
    in input order whose members are exactly the variants of [L] whose key
    (productNumber without its hyphens, then genderCode or [U], then
    colorCode, no extension) lies outside [C], and every sublist of [L]
    made of such variants is a sublist of it; with [C] empty it returns
    [L]; running it again on its own result (same ledger) returns the same
    list. *)
Theorem remainingProducts_exact (C : list string) (L : list Product) :
  remainingProducts C L `sublist_of` L
  ∧ (∀ p, p ∈ remainingProducts C L ↔ p ∈ L ∧ keyInWords p ∉ C)
  ∧ (∀ K, K `sublist_of` L → Forall (λ p, keyInWords p ∉ C) K →
       K `sublist_of` remainingProducts C L)
  ∧ remainingProducts [] L = L
  ∧ remainingProducts C (remainingProducts C L) = remainingProducts C L.
Proof.
  rewrite !remainingProducts_keyInWords.
  split; [apply sublist_filter|].
  split; [intros p; rewrite list_elem_of_filter; tauto|].
  split; [intros K HK HP; by apply sublist_filter_greatest|].
  split.
  - induction L as [|p L IH]; [done|].
    rewrite filter_cons_True; [by rewrite IH | apply not_elem_of_nil].
  - by apply list_filter_filter_r.
Qed.

(** ** Session ledger *)

Section Ledger.

Implicit Types (st : AppState) (evs : list SseData) (b : BatchStart).

Lemma handleGenerateImages_begin_session arg isResume st :
  (handleGenerateImages_begin arg isResume st).2 ≠ [] →
  generationSession (handleGenerateImages_begin arg isResume st).1 =
    if isResume then generationSession st
    else Some (Session.mk (Some (generatedProducts st)) (Some (photoStyle st))
                 [] (length (generatedProducts st)) "store-builder").
Proof.
  unfold handleGenerateImages_begin.
  destruct (_ || _ || _); simpl; [done|]. by destruct isResume.
Qed.

Lemma handleGenerate_begin_session st :
  (handleGenerate_begin st).2 ≠ [] →
  generationSession (handleGenerate_begin st).1 =
    (λ v, Session.mk None None [] (rowCount v) "csv") <$> validation st.
Proof.
  unfold handleGenerate_begin.
  destruct (file st), (validation st); simpl; try done.
  destruct (_ || _); simpl; done.
Qed.

Lemma onSseData_session ev st :
  generationSession (onSseData ev st) =
    match ev with
    | SseImage img => Session.complete (filename img) <$> generationSession st
    | SseComplete => None
    | _ => generationSession st
    end.
Proof. by destruct ev. Qed.

Lemma completeAll_nil (s : Session.t) : Session.completeAll [] s = s.
Proof. destruct s. unfold Session.completeAll; simpl. by rewrite app_nil_r. Qed.

Lemma completeAll_cons f fs (s : Session.t) :
  Session.completeAll fs (Session.complete f s) = Session.completeAll (f :: fs) s.
Proof.
  unfold Session.completeAll, Session.complete; simpl.
  by rewrite <- app_assoc.
Qed.

(** While no [complete] event arrives, the record collects the filenames
    of the [image] events in stream order. *)
Lemma onSseStream_session evs st :
  SseComplete ∉ evs →
  generationSession (onSseStream evs st) =
    Session.completeAll (imageFilenames evs) <$> generationSession st.
Proof.
  revert st. induction evs as [|ev evs IH]; intros st Hnc.
  - simpl. destruct (generationSession st); simpl; [|done].
    by rewrite completeAll_nil.
  - apply not_elem_of_cons in Hnc as [Hev Hnc].
    change (onSseStream (ev :: evs) st) with (onSseStream evs (onSseData ev st)).
    rewrite (IH _ Hnc), onSseData_session.
    destruct ev; try done.
    simpl. destruct (generationSession st); simpl; [|done].
    by rewrite completeAll_cons.
Qed.

(** C4, as stated, fails for a resumed run: resuming the interrupted
    session sends the request for the one remaining variant, and no
    session record is created at the start of that run; the stored one,
    with its completed filename, stays. *)
Lemma resumed_run_creates_no_session :
  handleResume interrupted_state =
    Returned (batch_begin (StartFromProducts (Some [polo_white]) true)
                interrupted_state)
  ∧ (batch_begin (StartFromProducts (Some [polo_white]) true)
       interrupted_state).2
    = [PostGenerateFromProducts "key" [polo_white] "flat lay"]
  ∧ generationSession
      (batch_begin (StartFromProducts (Some [polo_white]) true)
         interrupted_state).1
    = Some (Session.mk (Some [polo_navy; polo_white]) (Some "flat lay")
              ["CNCP1000MNAV"] 2 "store-builder")
  ∧ generationSession
      (batch_begin (StartFromProducts (Some [polo_white]) true)
         interrupted_state).1
    ≠ Some (Session.mk (Some [polo_navy; polo_white]) (Some "flat lay")
              [] 2 "store-builder").
Proof. repeat split; try reflexivity. vm_compute. discriminate. Qed.

(** C4, amended: when a batch run starts, a run that is not a resume
    creates the session record (store builder: the variant list, the
    photo style, no completed filename, the number of variants; CSV
    upload: no variant list, the row count), and a resumed run keeps the
    stored record; while no [complete] event has arrived the record holds,
    after its earlier entries, the filenames of the [image] events
    received so far, each [image] event adding its filename; the record
    is set to null by the [complete] event and by dismissing the resume
    banner. *)
Theorem session_ledger_lifecycle b st evs :
  (batch_begin b st).2 ≠ [] →
  SseComplete ∉ evs →
  let started := (batch_begin b st).1 in
  let running := onSseStream evs started in
  generationSession started =
    match b with
    | StartCsv =>
        (λ v, Session.mk None None [] (rowCount v) "csv") <$> validation st
    | StartFromProducts _ false =>
        Some (Session.mk (Some (generatedProducts st)) (Some (photoStyle st))
                [] (length (generatedProducts st)) "store-builder")
    | StartFromProducts _ true => generationSession st
    end
  ∧ generationSession running =
      Session.completeAll (imageFilenames evs) <$> generationSession started
  ∧ (∀ img,
       generationSession (onSseData (SseImage img) running) =
         Session.complete (filename img) <$> generationSession running)
  ∧ (∀ f s,
       (list_to_set (Session.completedFilenames (Session.complete f s)) : gset string)
       = list_to_set (Session.completedFilenames s) ∪ {[f]})
  ∧ generationSession (onSseData SseComplete running) = None
  ∧ (∀ st', generationSession (handleDismissResume st') = None).
Proof.
  intros Hrun Hnc started running.
  split; [|split; [|split; [|split; [|split]]]].
  - subst started. destruct b as [|arg isResume]; simpl in *.
    + by apply handleGenerate_begin_session.
    + rewrite handleGenerateImages_begin_session by done. by destruct isResume.
  - by apply onSseStream_session.
  - intros img. by rewrite onSseData_session.
  - intros f s. simpl. rewrite list_to_set_app_L. simpl.
    by rewrite (right_id_L ∅ (∪)).
  - by rewrite onSseData_session.
  - done.
Qed.

Lemma session_ledger_lifecycle_witness :
  let started := (batch_begin (StartFromProducts None false) styled_state).1 in
  let running := onSseStream [SseProgress 1 2 "CNC-P1000"; SseImage navy_image] started in
  generationSession started =
    Some (Session.mk (Some [polo_navy; polo_white]) (Some "flat lay") [] 2
            "store-builder")
  ∧ generationSession running =
      Session.completeAll ["CNCP1000MNAV"] <$> generationSession started
  ∧ (∀ img,
       generationSession (onSseData (SseImage img) running) =
         Session.complete (filename img) <$> generationSession running)
  ∧ (∀ f s,
       (list_to_set (Session.completedFilenames (Session.complete f s)) : gset string)
       = list_to_set (Session.completedFilenames s) ∪ {[f]})
  ∧ generationSession (onSseData SseComplete running) = None
  ∧ (∀ st', generationSession (handleDismissResume st') = None).
Proof.
  apply (session_ledger_lifecycle (StartFromProducts None false) styled_state
           [SseProgress 1 2 "CNC-P1000"; SseImage navy_image]).
  - discriminate.
  - rewrite !not_elem_of_cons.
    repeat split; [discriminate | discriminate | apply not_elem_of_nil].
Defined.

End Ledger.

(** ** Cancellation *)

Section Cancellation.

Implicit Types (st : AppState) (evs : list SseData) (b : BatchStart).

(** A started run has installed its controller and lowered the
    completion flag. *)
Lemma batch_begin_started b st :
  (batch_begin b st).2 ≠ [] →
  abortControllerRef (batch_begin b st).1 = Some Controller
  ∧ isComplete (batch_begin b st).1 = false
  ∧ error (batch_begin b st).1 = "".
Proof.
  destruct b as [|arg isResume]; simpl.
  - unfold handleGenerate_begin.
    destruct (file st), (validation st); simpl; try done.
    destruct (_ || _); simpl; done.
  - unfold handleGenerateImages_begin.
    destruct (_ || _ || _); simpl; [done|]. by destruct isResume.
Qed.

Lemma onSseData_controller ev st :
  abortControllerRef (onSseData ev st) = abortControllerRef st.
Proof. by destruct ev. Qed.

Lemma onSseData_isComplete ev st :
  ev ≠ SseComplete → isComplete (onSseData ev st) = isComplete st.
Proof. by destruct ev. Qed.

Lemma onSseStream_controller evs st :
  abortControllerRef (onSseStream evs st) = abortControllerRef st.
Proof.
  revert st. induction evs as [|ev evs IH]; intros st; [done|].
  change (onSseStream (ev :: evs) st) with (onSseStream evs (onSseData ev st)).
  by rewrite IH, onSseData_controller.
Qed.

Lemma onSseStream_isComplete evs st :
  SseComplete ∉ evs → isComplete (onSseStream evs st) = isComplete st.
Proof.
  revert st. induction evs as [|ev evs IH]; intros st Hnc; [done|].
  apply not_elem_of_cons in Hnc as [Hev Hnc].
  change (onSseStream (ev :: evs) st) with (onSseStream evs (onSseData ev st)).
  rewrite (IH _ Hnc). by apply onSseData_isComplete.
Qed.

(** C5: for every started batch run that has received no [complete]
    event and is cancelled, [handleCancel] aborts the request in flight,
    the [AbortError] branch leaves the accumulated error text as the
    stream events left it, the completion flag is false, the run is no
    longer generating, and the session record is kept. *)
Theorem cancelled_run_is_no_error b st evs message :
  (batch_begin b st).2 ≠ [] →
  SseComplete ∉ evs →
  let running := onSseStream evs (batch_begin b st).1 in
  let cancelled := (handleCancel running).1 in
  let final := batch_settle (Rejected "AbortError" message) cancelled in
  (handleCancel running).2 = [Abort]
  ∧ error cancelled = error running
  ∧ error final = error running
  ∧ isComplete final = false
  ∧ isGenerating final = false
  ∧ images final = images running
  ∧ generationSession final = generationSession running.
Proof.
  intros Hrun Hnc running cancelled final.
  destruct (batch_begin_started b st Hrun) as (Hctl & Hcompl & _).
  assert (Hc : abortControllerRef running = Some Controller).
  { subst running. by rewrite onSseStream_controller. }
  assert (Hf : isComplete running = false).
  { subst running. by rewrite onSseStream_isComplete. }
  subst final cancelled. unfold handleCancel. rewrite Hc. simpl.
  by rewrite Hf.
Qed.

Lemma cancelled_run_is_no_error_witness :
  let running :=
    onSseStream [SseImage navy_image; SseError "CNC-P1000 WHT: rate limit"]
      (batch_begin (StartFromProducts None false) styled_state).1 in
  let cancelled := (handleCancel running).1 in
  let final :=
    batch_settle (Rejected "AbortError" "The user aborted a request.")
      cancelled in
  (handleCancel running).2 = [Abort]
  ∧ error cancelled = error running
  ∧ error final = error running
  ∧ isComplete final = false
  ∧ isGenerating final = false
  ∧ images final = images running
  ∧ generationSession final = generationSession running.
Proof.
  apply (cancelled_run_is_no_error (StartFromProducts None false) styled_state
           [SseImage navy_image; SseError "CNC-P1000 WHT: rate limit"]).
  - discriminate.
  - rewrite !not_elem_of_cons.
    repeat split; [discriminate | discriminate | apply not_elem_of_nil].
Defined.

End Cancellation.

(** ** Resume *)

Section Resume.

Implicit Types (st : AppState) (session : Session.t).

(** C8: for every stored session whose mode is not the store-builder
    mode (the CSV mode stores no variant list, only a count), resume
    returns after hiding the banner: it sends no request and changes
    nothing else, the stored record included. *)
Theorem resume_other_mode_starts_nothing st session :
  generationSession st = Some session →
  Session.mode session ≠ "store-builder" →
  handleResume st = Returned (set_showResumeBanner false st, []).
Proof.
  intros Hs Hm. unfold handleResume. rewrite Hs.
  destruct (String.eqb_spec (Session.mode session) "store-builder"); done.
Qed.

Lemma resume_other_mode_starts_nothing_witness :
  handleResume (batch_begin StartCsv csv_state).1 =
    Returned (set_showResumeBanner false (batch_begin StartCsv csv_state).1, []).
Proof.
  apply (resume_other_mode_starts_nothing _
           (Session.mk None None [] 2 "csv")); [reflexivity | discriminate].
Defined.

Lemma remainingProducts_nil (C : list string) (L : list Product) :
  (∀ p, p ∈ L → resumeFilename p ∈ C) → remainingProducts C L = [].
Proof.
  intros H. rewrite remainingProducts_filter.
  induction L as [|p L IH]; [done|].
  rewrite filter_cons_False.
  - apply IH. intros q Hq. apply H. by right.
  - intros Hp. apply Hp, H. by left.
Qed.

(** C9: for every stored store-builder session in which the derived
    filename of every variant is among the completed filenames, resume
    sends no request, hides the banner and sets the session record to
    null. *)
Theorem resume_nothing_remaining_clears_ledger st session products :
  generationSession st = Some session →
  Session.mode session = "store-builder" →
  Session.products session = Some products →
  (∀ p, p ∈ products → resumeFilename p ∈ Session.completedFilenames session) →
  remainingProducts (Session.completedFilenames session) products = []
  ∧ handleResume st =
      Returned (set_generationSession None (set_showResumeBanner false st), []).
Proof.
  intros Hs Hm Hp Hall.
  pose proof (remainingProducts_nil _ _ Hall) as Hnil.
  split; [done|].
  unfold handleResume. by rewrite Hs, Hm, Hp, Hnil.
Qed.

Lemma resume_nothing_remaining_clears_ledger_witness :
  remainingProducts ["CNCP1000MNAV"; "CNCP1000MWHT"] [polo_navy; polo_white] = []
  ∧ handleResume all_done_state =
      Returned (set_generationSession None
                  (set_showResumeBanner false all_done_state), []).
Proof.
  apply (resume_nothing_remaining_clears_ledger all_done_state
           (Session.mk (Some [polo_navy; polo_white]) (Some "flat lay")
              ["CNCP1000MNAV"; "CNCP1000MWHT"] 2 "store-builder")
           [polo_navy; polo_white]); try reflexivity.
  intros p Hp. cbn [Session.completedFilenames].
  apply elem_of_cons in Hp as [->|Hp].
  - by left.
  - apply list_elem_of_singleton in Hp as ->. right. by left.
Defined.

End Resume.

(** ** Single-image regeneration *)

Section Regeneration.

Implicit Types (st : AppState) (w : RegenWorld) (f : string) (image : Image).

Lemma handleRegenerate_begin_pending f image st pending :
  regeneratingFilename st = Some pending → pending ≠ "" →
  handleRegenerate_begin f image st = (st, []).
Proof.
  intros Hm Hne. unfold handleRegenerate_begin. rewrite Hm. simpl.
  destruct (String.eqb_spec pending ""); [done|].
  by rewrite orb_true_r.
Qed.

Lemma regenStep_singleSlot w s :
  namedClick s → singleSlot w → singleSlot (regenStep w s).
Proof.
  intros Hs [[Hin Hm]|(f0 & image0 & Hin & Hm & Hne)].
  - destruct s as [f image|r]; simpl.
    + unfold handleRegenerate_begin. rewrite Hm. simpl.
      destruct (Js.not_str (apiKey (app w))); simpl.
      * left. done.
      * right. exists f, image. rewrite Hin. done.
    + rewrite Hin. left. done.
  - destruct s as [f image|r]; simpl.
    + rewrite (handleRegenerate_begin_pending _ _ _ _ Hm Hne).
      right. exists f0, image0. done.
    + rewrite Hin. left. split; [done|]. by destruct r.
Qed.

Lemma regenRun_singleSlot steps w :
  Forall namedClick steps → singleSlot w → singleSlot (regenRun w steps).
Proof.
  revert w. induction steps as [|s steps IH]; intros w Hs Hw; [done|].
  apply Forall_cons in Hs as [Hs Hsteps].
  change (regenRun w (s :: steps)) with (regenRun (regenStep w s) steps).
  apply IH; [done|]. by apply regenStep_singleSlot.
Qed.

Lemma handleRegenerate_begin_truthy f image st :
  Js.truthy (regeneratingFilename st) = true →
  handleRegenerate_begin f image st = (st, []).
Proof.
  intros Ht. unfold handleRegenerate_begin. by rewrite Ht, orb_true_r.
Qed.

(** C6, as stated, fails: with an API key set and the marker holding the
    empty string (non-null: a regeneration of the entry named by the empty
    string is pending), a further request is not turned away; it sets the
    marker and sends its request, and two regenerations are in flight. *)
Lemma regeneration_empty_marker_does_not_block :
  let st := set_regeneratingFilename (Some "") gallery_state in
  let w :=
    regenRun (mkRegenWorld gallery_state [])
      [Click "" unnamed_image; Click "CNCP1000MWHT" white_image] in
  regeneratingFilename st ≠ None
  ∧ (handleRegenerate_begin "CNCP1000MWHT" white_image st).2
    = [PostRegenerateSingle "key" "CNC-P1000" "Performance Polo" "M" "WHT"
         "White" (Some "white polo, flat lay")]
  ∧ regeneratingFilename
      (handleRegenerate_begin "CNCP1000MWHT" white_image st).1
    = Some "CNCP1000MWHT"
  ∧ inflight w = [("", unnamed_image); ("CNCP1000MWHT", white_image)].
Proof. repeat split; try reflexivity. discriminate. Qed.

(** C6, amended: every request to regenerate made while the marker is
    truthy (non-null and not the empty string) returns at once: the state
    is unchanged and no request is sent.  So, starting with no
    regeneration pending, after any sequence of regenerate requests for
    entries with a non-empty filename and of settlements, at most one
    regeneration is in flight, the marker is truthy (and non-null) exactly
    when one is, and a further request then changes nothing. *)
Theorem regeneration_single_slot w steps f image :
  inflight w = [] →
  regeneratingFilename (app w) = None →
  Forall namedClick steps →
  let w' := regenRun w steps in
  (length (inflight w') ≤ 1)%nat
  ∧ (is_Some (regeneratingFilename (app w')) ↔ inflight w' ≠ [])
  ∧ (is_Some (regeneratingFilename (app w')) →
       handleRegenerate_begin f image (app w') = (app w', [])
       ∧ regenStep w' (Click f image) = w')
  ∧ (Js.truthy (regeneratingFilename (app w')) = true ↔ inflight w' ≠ [])
  ∧ (∀ st, Js.truthy (regeneratingFilename st) = true →
       handleRegenerate_begin f image st = (st, [])).
Proof.
  intros Hin Hm Hsteps w'.
  assert (Hw' : singleSlot w').
  { apply regenRun_singleSlot; [done|]. by left. }
  destruct Hw' as [[Hin' Hm']|(f0 & image0 & Hin' & Hm' & Hne)].
  - rewrite Hin', Hm'. split; [simpl; lia|]. split.
    { split; [by intros [? ?]|done]. }
    split; [by intros [? ?]|]. split; [done|].
    intros st. apply handleRegenerate_begin_truthy.
  - rewrite Hin', Hm'. split; [simpl; lia|]. split.
    { split; [done|by eexists]. }
    split.
    { intros _.
      pose proof (handleRegenerate_begin_pending f image _ _ Hm' Hne) as Hb.
      split; [done|]. unfold regenStep. rewrite Hb. by destruct w'. }
    split.
    { simpl. destruct (String.eqb_spec f0 ""); done. }
    intros st. apply handleRegenerate_begin_truthy.
Qed.

Lemma regeneration_single_slot_witness :
  let w' :=
    regenRun (mkRegenWorld gallery_state [])
      [Click "CNCP1000MNAV" navy_image; Click "CNCP1000MWHT" white_image] in
  (length (inflight w') ≤ 1)%nat
  ∧ (is_Some (regeneratingFilename (app w')) ↔ inflight w' ≠ [])
  ∧ (is_Some (regeneratingFilename (app w')) →
       handleRegenerate_begin "CNCP1000MWHT" white_image (app w') = (app w', [])
       ∧ regenStep w' (Click "CNCP1000MWHT" white_image) = w')
  ∧ (Js.truthy (regeneratingFilename (app w')) = true ↔ inflight w' ≠ [])
  ∧ (∀ st, Js.truthy (regeneratingFilename st) = true →
       handleRegenerate_begin "CNCP1000MWHT" white_image st = (st, [])).
Proof.
  apply (regeneration_single_slot (mkRegenWorld gallery_state [])
           [Click "CNCP1000MNAV" navy_image; Click "CNCP1000MWHT" white_image]);
    [reflexivity | reflexivity |].
  repeat constructor; discriminate.
Defined.




End Regeneration.

(** * Further properties of the handlers *)

(** ** Error panel *)

Section ErrorText.

Implicit Types (st : AppState) (evs : list SseData) (c : ascii).

Lemma split_char_nonempty c (s : string) : split_char c s ≠ [].
Proof.
  destruct s as [|x r]; simpl; [done|].
  destruct (Ascii.eqb x c); [done|]. by destruct (split_char c r).
Qed.

Lemma split_char_line c (m : string) :
  string_forallb (λ x, negb (Ascii.eqb x c)) m = true → split_char c m = [m].
Proof.
  induction m as [|x r IH]; simpl; [done|].
  intros [Hx Hr]%andb_prop. apply negb_true_iff in Hx. rewrite Hx.
  by rewrite (IH Hr).
Qed.

Lemma split_char_app c (a b : string) :
  split_char c (a +:+ String c b) = (split_char c a ++ split_char c b)%list.
Proof.
  induction a as [|x r IH].
  - rewrite append_nil_l. simpl. by rewrite Ascii.eqb_refl.
  - rewrite append_cons. simpl. destruct (Ascii.eqb x c); [by rewrite IH|].
    rewrite IH. pose proof (split_char_nonempty c r).
    by destruct (split_char c r).
Qed.

Lemma onSseData_error ev st :
  error (onSseData ev st) =
    match ev with
    | SseError m =>
        if Js.not_str (error st) then m else error st +:+ newline +:+ m
    | _ => error st
    end.
Proof. by destruct ev. Qed.

(** The panel either shows nothing, or its lines are the list [L]. *)
Lemma onSseStream_errorLines evs st (L : list string) :
  (L = [] ∧ error st = "") ∨ (L ≠ [] ∧ error st ≠ "" ∧ errorLines st = L) →
  Forall oneLine (errorMessages evs) →
  let st' := onSseStream evs st in
  let L' := (L ++ errorMessages evs)%list in
  (L' = [] ∧ error st' = "") ∨ (L' ≠ [] ∧ error st' ≠ "" ∧ errorLines st' = L').
Proof.
  revert st L. induction evs as [|ev evs IH]; intros st L Hinv Hms.
  - simpl. by rewrite app_nil_r.
  - change (onSseStream (ev :: evs) st) with (onSseStream evs (onSseData ev st)).
    destruct ev as [c t p|img|m| |];
      try (apply (IH (onSseData _ st) L); [exact Hinv | exact Hms]).
    change (errorMessages (SseError m :: evs)) with (m :: errorMessages evs) in *.
    apply Forall_cons in Hms as [[Hne Hline] Hms].
    replace (L ++ m :: errorMessages evs)%list
      with ((L ++ [m]) ++ errorMessages evs)%list
      by (by rewrite <- app_assoc).
    apply IH; [|done]. right. split; [by destruct L|].
    unfold errorLines. rewrite onSseData_error.
    destruct Hinv as [[-> He]|(HL & He & Hsplit)].
    + rewrite He. simpl. split; [done|]. by apply split_char_line.
    + unfold Js.not_str. destruct (String.eqb_spec (error st) ""); [done|].
      split.
      * destruct (error st); [done|]. by rewrite append_cons.
      * unfold newline. rewrite append_cons, append_nil_l, split_char_app.
        unfold errorLines in Hsplit. by rewrite Hsplit, split_char_line.
Qed.

(** X1: when the messages of the [error] events of a run are non-empty and
    free of line breaks, the panel shows nothing if there were none, and
    otherwise splitting the accumulated text at the line breaks gives the
    messages back, one line each, in the order they arrived. *)
Theorem error_panel_lines b st evs :
  (batch_begin b st).2 ≠ [] →
  Forall oneLine (errorMessages evs) →
  let final := onSseStream evs (batch_begin b st).1 in
  (errorMessages evs = [] → error final = "")
  ∧ (errorMessages evs ≠ [] →
       error final ≠ "" ∧ errorLines final = errorMessages evs).
Proof.
  intros Hrun Hms final.
  destruct (batch_begin_started b st Hrun) as (_ & _ & He).
  destruct (onSseStream_errorLines evs (batch_begin b st).1 [] (or_introl (conj eq_refl He)) Hms)
    as [[Hnil Herr]|(Hne & Herr & Hlines)]; simpl in *.
  - split; [done|]. by intros H.
  - split; [by intros H|done].
Qed.

Lemma error_panel_lines_witness :
  let final :=
    onSseStream [SseError "NAV: rate limit"; SseImage white_image;
                 SseError "BLK: blocked"]
      (batch_begin (StartFromProducts None false) styled_state).1 in
  (errorMessages [SseError "NAV: rate limit"; SseImage white_image;
                  SseError "BLK: blocked"] = [] → error final = "")
  ∧ (errorMessages [SseError "NAV: rate limit"; SseImage white_image;
                    SseError "BLK: blocked"] ≠ [] →
       error final ≠ ""
       ∧ errorLines final = ["NAV: rate limit"; "BLK: blocked"]).
Proof.
  apply (error_panel_lines (StartFromProducts None false) styled_state
           [SseError "NAV: rate limit"; SseImage white_image;
            SseError "BLK: blocked"]).
  - discriminate.
  - repeat constructor; discriminate.
Defined.

End ErrorText.

(** ** Ledger across runs *)

Section LedgerAcrossRuns.

Implicit Types (st : AppState) (evs : list SseData) (b : BatchStart).

Lemma onSseStream_app evs1 evs2 st :
  onSseStream (evs1 ++ evs2)%list st = onSseStream evs2 (onSseStream evs1 st).
Proof. unfold onSseStream. apply foldl_app. Qed.

Lemma onSseStream_session_None evs st :
  generationSession st = None → generationSession (onSseStream evs st) = None.
Proof.
  revert st. induction evs as [|ev evs IH]; intros st Hs; [done|].
  change (onSseStream (ev :: evs) st) with (onSseStream evs (onSseData ev st)).
  apply IH. rewrite onSseData_session, Hs. by destruct ev.
Qed.

Lemma onSseStream_session_complete evs st :
  SseComplete ∈ evs → generationSession (onSseStream evs st) = None.
Proof.
  intros Hc. apply list_elem_of_split in Hc as (evs1 & evs2 & ->).
  rewrite onSseStream_app.
  change (onSseStream (SseComplete :: evs2) ?s)
    with (onSseStream evs2 (onSseData SseComplete s)).
  apply onSseStream_session_None. by rewrite onSseData_session.
Qed.

(** X2: stream events never bring a session record into being: if the
    record is null before a stream, or the stream carries a [complete]
    event anywhere, the record is null after the stream, whatever events
    come after the [complete]. *)
Theorem ledger_stays_cleared evs st :
  generationSession st = None ∨ SseComplete ∈ evs →
  generationSession (onSseStream evs st) = None.
Proof.
  intros [Hs|Hc];
    [by apply onSseStream_session_None | by apply onSseStream_session_complete].
Qed.

Lemma ledger_stays_cleared_witness :
  generationSession
    (onSseStream [SseImage navy_image; SseComplete; SseImage white_image]
       (batch_begin (StartFromProducts None false) styled_state).1) = None.
Proof.
  apply (ledger_stays_cleared
           [SseImage navy_image; SseComplete; SseImage white_image]).
  right. apply elem_of_cons. right. apply elem_of_cons. by left.
Defined.

End LedgerAcrossRuns.

(** ** Interruption and resume *)

Section Interruption.

Implicit Types (st : AppState) (evs : list SseData) (b : BatchStart).

Lemma handleGenerateImages_begin_resume (rest : list Product) st :
  apiKey st ≠ "" → Js.trim (photoStyle st) ≠ "" → rest ≠ [] →
  handleGenerateImages_begin (Some rest) true st =
    (set_showResumeBanner false
       (set_isComplete false
          (set_error ""
             (set_progress (mkProgress 0 (length rest) "")
                (set_isGenerating true
                   (set_abortControllerRef (Some Controller) st))))),
     [PostGenerateFromProducts (apiKey st) rest (photoStyle st)]).
Proof.
  intros Hk Hp Hr. unfold handleGenerateImages_begin, Js.not_str. simpl.
  destruct (String.eqb_spec (apiKey st) ""); [done|].
  destruct (String.eqb_spec (Js.trim (photoStyle st)) ""); [done|].
  by destruct rest.
Qed.

(** X3: a store-builder run starts afresh, receives any events short of
    [complete], and stops.  Resume is then asked of any later state that
    holds the same session record, an API key and a photo style that is
    not blank.  The variants that remain are those of the catalogue
    recorded at the start whose key is not the filename of a received
    [image] event, in catalogue order.  When none remains, resume sends no
    request, hides the banner and sets the session record to null.  When
    some remain, resume sends exactly one request, for those variants, with
    the current key and style, and the resumed run leaves the gallery, the
    store and the session record as they are. *)
Theorem resume_after_interruption st arg evs st2 :
  (handleGenerateImages_begin arg false st).2 ≠ [] →
  SseComplete ∉ evs →
  generationSession st2 =
    generationSession (onSseStream evs (handleGenerateImages_begin arg false st).1) →
  apiKey st2 ≠ "" →
  Js.trim (photoStyle st2) ≠ "" →
  let rest := remainingProducts (imageFilenames evs) (generatedProducts st) in
  (rest = [] →
     handleResume st2 =
       Returned (set_generationSession None (set_showResumeBanner false st2), []))
  ∧ (rest ≠ [] →
     ∃ st3,
       handleResume st2 =
         Returned (st3, [PostGenerateFromProducts (apiKey st2) rest (photoStyle st2)])
       ∧ images st3 = images st2
       ∧ imageStore st3 = imageStore st2
       ∧ generationSession st3 = generationSession st2
       ∧ isGenerating st3 = true
       ∧ total (progress st3) = length rest).
Proof.
  intros Hrun Hnc Hs Hk Hp rest.
  rewrite (onSseStream_session _ _ Hnc) in Hs.
  rewrite (handleGenerateImages_begin_session _ _ _ Hrun) in Hs. simpl in Hs.
  assert (Hres : handleResume st2 =
            if (length rest =? 0)%nat
            then Returned (set_generationSession None
                             (set_showResumeBanner false st2), [])
            else Returned (handleGenerateImages_begin (Some rest) true st2)).
  { unfold handleResume. by rewrite Hs. }
  rewrite Hres. split.
  - by intros ->.
  - intros Hrest. destruct rest as [|p rest'] eqn:E; [done|]. simpl.
    rewrite handleGenerateImages_begin_resume by done.
    eexists. split; [reflexivity|]. simpl. by rewrite Hs.
Qed.

Lemma resume_after_interruption_witness :
  let rest :=
    remainingProducts (imageFilenames [SseImage navy_image])
      (generatedProducts styled_state) in
  (rest = [] →
     handleResume interrupted_state =
       Returned (set_generationSession None
                   (set_showResumeBanner false interrupted_state), []))
  ∧ (rest ≠ [] →
     ∃ st3,
       handleResume interrupted_state =
         Returned (st3,
                   [PostGenerateFromProducts (apiKey interrupted_state) rest
                      (photoStyle interrupted_state)])
       ∧ images st3 = images interrupted_state
       ∧ imageStore st3 = imageStore interrupted_state
       ∧ generationSession st3 = generationSession interrupted_state
       ∧ isGenerating st3 = true
       ∧ total (progress st3) = length rest).
Proof.
  apply (resume_after_interruption styled_state None [SseImage navy_image]
           interrupted_state); try discriminate; try reflexivity.
  rewrite not_elem_of_cons. split; [discriminate | apply not_elem_of_nil].
Defined.

(** X4: after a run that created its session record, the next mount
    raises the resume banner exactly when the run was a store-builder run,
    no [complete] event arrived, and fewer [image] events arrived than the
    catalogue has rows.  A CSV run never raises it. *)
Theorem resume_banner_after_interruption b st evs st' :
  (batch_begin b st).2 ≠ [] →
  freshStart b →
  showResumeBanner st' = false →
  let stored := generationSession (onSseStream evs (batch_begin b st).1) in
  showResumeBanner (mount_detectSession stored st') = true ↔
    (b ≠ StartCsv) ∧ (SseComplete ∉ evs)
    ∧ (length (imageFilenames evs) < length (generatedProducts st))%nat.
Proof.
  intros Hrun Hfresh Hb stored. subst stored.
  destruct (decide (SseComplete ∈ evs)) as [Hc|Hnc].
  { rewrite onSseStream_session_complete by done. simpl. rewrite Hb.
    split; [done|]. by intros (_ & ? & _). }
  rewrite (onSseStream_session _ _ Hnc).
  destruct b as [|arg [|]]; [| done |]; simpl in *.
  - rewrite (handleGenerate_begin_session _ Hrun).
    destruct (validation st); simpl; rewrite Hb; split; try done;
      by intros (? & _).
  - rewrite (handleGenerateImages_begin_session _ _ _ Hrun). simpl.
    destruct (Nat.ltb_spec (length (imageFilenames evs))
                (length (generatedProducts st))); simpl.
    + split; [|done]. intros _. repeat split; done.
    + rewrite Hb. split; [done|]. intros (_ & _ & ?). lia.
Qed.

Lemma resume_banner_after_interruption_witness :
  showResumeBanner
    (mount_detectSession
       (generationSession
          (onSseStream [SseImage navy_image]
             (batch_begin (StartFromProducts None false) styled_state).1))
       initial_state) = true ↔
    (StartFromProducts None false ≠ StartCsv)
    ∧ (SseComplete ∉ [SseImage navy_image])
    ∧ (length (imageFilenames [SseImage navy_image])
       < length (generatedProducts styled_state))%nat.
Proof.
  apply (resume_banner_after_interruption (StartFromProducts None false)
           styled_state [SseImage navy_image] initial_state);
    [discriminate | exact I | reflexivity].
Defined.

End Interruption.

(** ** Gallery and store *)

Section GalleryAndStore.

Implicit Types (st : AppState) (db : gmap string Image) (imgs : list Image).

Lemma with_filename_own (img : Image) : with_filename (filename img) img = img.
Proof. by destruct img. Qed.

Lemma keyed_empty : keyed ∅.
Proof. intros k img H. by rewrite lookup_empty in H. Qed.

Lemma keyed_saveImage img db : keyed db → keyed (ImageDb.saveImage img db).
Proof.
  intros Hk k x. unfold ImageDb.saveImage.
  destruct (decide (filename img = k)) as [<-|Hne].
  - rewrite lookup_insert_eq. by intros [= <-].
  - rewrite lookup_insert_ne by done. apply Hk.
Qed.

Lemma keyed_replaceImage f img db : keyed db → keyed (ImageDb.replaceImage f img db).
Proof.
  intros Hk k x. unfold ImageDb.replaceImage.
  destruct (decide (f = k)) as [<-|Hne].
  - rewrite lookup_insert_eq. by intros [= <-].
  - rewrite lookup_insert_ne by done. apply Hk.
Qed.

Lemma keyed_dbRun ops db : keyed db → keyed (dbRun ops db).
Proof.
  revert db. induction ops as [|op ops IH]; intros db Hk; [done|].
  change (dbRun (op :: ops) db) with (dbRun ops (dbApply db op)).
  apply IH. destruct op; simpl.
  - by apply keyed_saveImage.
  - by apply keyed_replaceImage.
  - apply keyed_empty.
Qed.

Lemma galleryIndex_snoc imgs img :
  galleryIndex (imgs ++ [img])%list = ImageDb.saveImage img (galleryIndex imgs).
Proof. unfold galleryIndex. by rewrite foldl_app. Qed.

Lemma galleryIndex_list_to_map imgs :
  galleryIndex imgs = list_to_map (reverse ((λ i, (filename i, i)) <$> imgs)).
Proof.
  induction imgs as [|img imgs IH] using rev_ind; [done|].
  rewrite galleryIndex_snoc, fmap_app, reverse_app, IH. done.
Qed.

Lemma keyed_galleryIndex imgs : keyed (galleryIndex imgs).
Proof.
  induction imgs as [|img imgs IH] using rev_ind; [apply keyed_empty|].
  rewrite galleryIndex_snoc. by apply keyed_saveImage.
Qed.

#[local] Instance key_le_total : Total key_le.
Proof. intros a b. apply String.leb_total. Qed.

(** In a keyed store the listing pairs each key with a record of that
    name. *)
Lemma keyed_listing db (L : list (string * Image)) :
  keyed db → L ≡ₚ map_to_list db →
  (λ i, (filename i, i)) <$> L.*2 = L ∧ filename <$> L.*2 = L.*1.
Proof.
  intros Hk HL.
  assert (HF : Forall (λ kv, filename kv.2 = kv.1) L).
  { apply Forall_forall. intros [k v] Hin. rewrite HL in Hin.
    apply elem_of_map_to_list in Hin. by apply Hk. }
  clear HL. induction HF as [|[k v] L Hkv _ [IH1 IH2]]; [done|].
  simpl in *. subst k. split; f_equal; done.
Qed.

Lemma loadAllImages_listing db :
  keyed db →
  NoDup (filename <$> loadAllImages db)
  ∧ Sorted (λ a b, String.leb a b = true) (filename <$> loadAllImages db)
  ∧ (∀ img, img ∈ loadAllImages db ↔ db !! filename img = Some img)
  ∧ galleryIndex (loadAllImages db) = db.
Proof.
  intros Hk.
  set (L := merge_sort key_le (map_to_list db)).
  assert (HL : L ≡ₚ map_to_list db) by apply merge_sort_Permutation.
  destruct (keyed_listing db L Hk HL) as [Hkv Hnames].
  assert (Hnd : NoDup L.*1).
  { rewrite HL. apply NoDup_fst_map_to_list. }
  unfold loadAllImages. fold L.
  split; [by rewrite Hnames|].
  split.
  { rewrite Hnames. apply (Sorted_fmap fst key_le); [done|].
    apply (Sorted_merge_sort key_le). }
  split.
  { intros img. rewrite list_elem_of_fmap. split.
    - intros ([k v] & -> & Hin). rewrite HL in Hin.
      apply elem_of_map_to_list in Hin. simpl. by rewrite (Hk _ _ Hin).
    - intros Hin. exists (filename img, img). split; [done|].
      rewrite HL. by apply elem_of_map_to_list. }
  rewrite galleryIndex_list_to_map, Hkv.
  rewrite (list_to_map_proper (reverse L) (map_to_list db)).
  - apply list_to_map_to_list.
  - by rewrite reverse_Permutation.
  - by rewrite reverse_Permutation.
Qed.

(** X6: whatever sequence of saves, replacements and clears is applied to
    an empty store, every record is found under its own filename;
    [loadAllImages] lists each stored record once, in ascending filename
    order; and saving the listed records again, in that order, into an
    empty store rebuilds the store. *)
Theorem store_records_keyed_and_listed (ops : list DbOp) :
  let db := dbRun ops ∅ in
  keyed db
  ∧ NoDup (filename <$> loadAllImages db)
  ∧ Sorted (λ a b, String.leb a b = true) (filename <$> loadAllImages db)
  ∧ (∀ img, img ∈ loadAllImages db ↔ db !! filename img = Some img)
  ∧ galleryIndex (loadAllImages db) = db.
Proof.
  intros db.
  assert (Hk : keyed db) by (apply keyed_dbRun, keyed_empty).
  split; [done|]. by apply loadAllImages_listing.
Qed.

Lemma replaceInGallery_absent f newImg imgs :
  Forall (λ old, filename old ≠ f) imgs → replaceInGallery f newImg imgs = imgs.
Proof.
  induction 1 as [|old imgs Hne _ IH]; [done|]. simpl.
  destruct (String.eqb_spec (filename old) f); [done|]. by rewrite IH.
Qed.

Lemma replaceInGallery_snoc f newImg imgs img :
  replaceInGallery f newImg (imgs ++ [img])%list =
    (replaceInGallery f newImg imgs
       ++ [if String.eqb (filename img) f then newImg else img])%list.
Proof. unfold replaceInGallery. by rewrite map_app. Qed.

Lemma galleryIndex_replaceInGallery f newImg imgs :
  filename newImg = f →
  Exists (λ old, filename old = f) imgs →
  galleryIndex (replaceInGallery f newImg imgs) = <[f := newImg]> (galleryIndex imgs).
Proof.
  intros Hf. induction imgs as [|img imgs IH] using rev_ind.
  { intros H. by apply Exists_nil in H. }
  intros Hex. rewrite replaceInGallery_snoc, !galleryIndex_snoc.
  unfold ImageDb.saveImage.
  destruct (decide (Exists (λ old, filename old = f) imgs)) as [Hin|Hout].
  - rewrite (IH Hin).
    destruct (String.eqb_spec (filename img) f) as [He|Hne].
    + rewrite Hf, He. by rewrite !insert_insert_eq.
    + by rewrite insert_insert_ne.
  - apply not_Exists_Forall in Hout; [|intros x; apply _].
    rewrite (replaceInGallery_absent f newImg imgs)
      by (eapply Forall_impl; [exact Hout|]; simpl; intros x Hx; exact Hx).
    apply Exists_app in Hex as [Hex|Hex].
    { exfalso. apply Exists_exists in Hex as (x & Hx & Hfx).
      rewrite Forall_forall in Hout. by apply (Hout x Hx). }
    apply Exists_cons in Hex as [He|Hex]; [|by apply Exists_nil in Hex].
    destruct (String.eqb_spec (filename img) f); [|done].
    by rewrite Hf, He, insert_insert_eq.
Qed.

Lemma regenerated_filename image d p : filename (regenerated image d p) = filename image.
Proof. done. Qed.

(** X5: when the store holds what the gallery shows, it still does after
    any stream event, after the start of any batch run (a fresh start
    empties both, a resumed one touches neither), after a run settles,
    after resume and dismissal, after a failed regeneration, and after a
    successful regeneration requested for an entry the gallery still
    lists under the filename passed. *)
Theorem gallery_store_agreement st :
  agrees st →
  (∀ ev, agrees (onSseData ev st))
  ∧ (∀ b, agrees (batch_begin b st).1)
  ∧ (∀ o, agrees (batch_settle o st))
  ∧ (∀ st' eff, handleResume st = Returned (st', eff) → agrees st')
  ∧ agrees (handleDismissResume st)
  ∧ (∀ f image m, agrees (handleRegenerate_settle f image (RegenFailed m) st))
  ∧ (∀ f image d p,
       filename image = f →
       Exists (λ old, filename old = f) (images st) →
       agrees (handleRegenerate_settle f image (RegenOk d p) st)).
Proof.
  unfold agrees. intros Hag.
  assert (Hbegin : ∀ arg isResume,
            imageStore (handleGenerateImages_begin arg isResume st).1
            = galleryIndex (images (handleGenerateImages_begin arg isResume st).1)).
  { intros arg isResume. unfold handleGenerateImages_begin.
    destruct (_ || _ || _); simpl; [done|]. by destruct isResume. }
  split.
  { intros ev. destruct ev; simpl; try done.
    by rewrite galleryIndex_snoc, Hag. }
  split.
  { intros [|arg isResume]; simpl; [|apply Hbegin].
    unfold handleGenerate_begin.
    destruct (file st), (validation st); simpl; try done.
    by destruct (_ || _). }
  split.
  { intros [|name message]; simpl; [done|].
    by destruct (String.eqb name "AbortError"). }
  split.
  { intros st' eff. unfold handleResume.
    destruct (generationSession st) as [session|]; [|by intros [= <- <-]].
    destruct (negb _); [by intros [= <- <-]|].
    destruct (Session.products session) as [products|]; [|done].
    destruct (_ =? _)%nat; [by intros [= <- <-]|].
    intros [= H]. pose proof (Hbegin (Some (remainingProducts
      (Session.completedFilenames session) products)) true) as Hb.
    by rewrite H in Hb. }
  split; [done|].
  split; [done|].
  intros f image d p Hf Hex. simpl.
  rewrite galleryIndex_replaceInGallery; [|by rewrite regenerated_filename|done].
  unfold ImageDb.replaceImage. rewrite Hag.
  rewrite <- Hf at 2. rewrite <- (regenerated_filename image d p).
  by rewrite with_filename_own.
Qed.

Lemma gallery_store_agreement_witness :
  (∀ ev, agrees (onSseData ev gallery_state))
  ∧ (∀ b, agrees (batch_begin b gallery_state).1)
  ∧ (∀ o, agrees (batch_settle o gallery_state))
  ∧ (∀ st' eff, handleResume gallery_state = Returned (st', eff) → agrees st')
  ∧ agrees (handleDismissResume gallery_state)
  ∧ (∀ f image m,
       agrees (handleRegenerate_settle f image (RegenFailed m) gallery_state))
  ∧ (∀ f image d p,
       filename image = f →
       Exists (λ old, filename old = f) (images gallery_state) →
       agrees (handleRegenerate_settle f image (RegenOk d p) gallery_state)).
Proof. apply (gallery_store_agreement gallery_state). reflexivity. Defined.

Lemma galleryIndex_nil_inv imgs : galleryIndex imgs = ∅ → imgs = [].
Proof.
  destruct imgs as [|img imgs _] using rev_ind; [done|].
  rewrite galleryIndex_snoc. unfold ImageDb.saveImage. intros H.
  by apply insert_non_empty in H.
Qed.

(** X7: at mount, with the gallery still empty and a store whose records
    sit under their own filenames, the callback of [loadAllImages] makes
    the gallery the stored records in ascending filename order; gallery
    and store then agree; and the completion flag is raised exactly when
    the store is not empty (or the flag was up already). *)
Theorem mount_gallery_load st :
  keyed (imageStore st) →
  images st = [] →
  let st' := mount_imagesLoaded (loadAllImages (imageStore st)) st in
  images st' = loadAllImages (imageStore st)
  ∧ agrees st'
  ∧ imageStore st' = imageStore st
  ∧ (isComplete st' = true ↔ imageStore st ≠ ∅ ∨ isComplete st = true).
Proof.
  intros Hk Hnil st'.
  destruct (loadAllImages_listing _ Hk) as (_ & _ & _ & Hround).
  subst st'. unfold mount_imagesLoaded, agrees.
  destruct (loadAllImages (imageStore st)) as [|img imgs] eqn:E; simpl.
  - rewrite Hnil. repeat split; try done.
    + intros H. by right.
    + intros [H|H]; [|done]. by rewrite <- Hround in H.
  - repeat split; try done.
    intros _. left. intros Hempty. rewrite Hempty in Hround.
    by apply galleryIndex_nil_inv in Hround.
Qed.

Lemma mount_gallery_load_witness :
  let st := set_images [] gallery_state in
  let st' := mount_imagesLoaded (loadAllImages (imageStore st)) st in
  images st' = loadAllImages (imageStore st)
  ∧ agrees st'
  ∧ imageStore st' = imageStore st
  ∧ (isComplete st' = true ↔ imageStore st ≠ ∅ ∨ isComplete st = true).
Proof.
  apply (mount_gallery_load (set_images [] gallery_state)); [|reflexivity].
  apply (keyed_galleryIndex [navy_image; white_image]).
Defined.

Lemma imagesMap_galleryIndex imgs : imagesMap imgs = data <$> galleryIndex imgs.
Proof.
  induction imgs as [|img imgs IH] using rev_ind;
    [symmetry; apply fmap_empty|].
  rewrite galleryIndex_snoc. unfold imagesMap, ImageDb.saveImage in *.
  by rewrite foldl_app, fmap_insert, <- IH.
Qed.

Lemma dom_galleryIndex imgs :
  dom (galleryIndex imgs) = list_to_set (filename <$> imgs).
Proof.
  induction imgs as [|img imgs IH] using rev_ind; [apply dom_empty_L|].
  rewrite galleryIndex_snoc. unfold ImageDb.saveImage.
  rewrite dom_insert_L, IH, fmap_app, list_to_set_app_L. simpl.
  rewrite (right_id_L ∅ (∪)). apply (comm_L (∪)).
Qed.

Lemma galleryIndex_lookup_NoDup imgs img :
  NoDup (filename <$> imgs) → img ∈ imgs →
  galleryIndex imgs !! filename img = Some img.
Proof.
  intros Hnd Hin. rewrite galleryIndex_list_to_map.
  apply elem_of_list_to_map_1.
  - rewrite fmap_reverse, reverse_Permutation, <- list_fmap_compose.
    exact Hnd.
  - rewrite reverse_Permutation. apply list_elem_of_fmap. by exists img.
Qed.

(** X8: when the store holds what the gallery shows, the map of images
    that [handlePushToShopify] builds from the gallery is the store with
    each record reduced to its data; its keys are the filenames of the
    gallery; and when these are pairwise distinct every gallery entry is
    sent under its filename with its own data. *)
Theorem pushed_images_are_the_stored_ones st :
  agrees st →
  imagesMap (images st) = data <$> imageStore st
  ∧ dom (imagesMap (images st)) = list_to_set (filename <$> images st)
  ∧ (NoDup (filename <$> images st) →
     ∀ img, img ∈ images st →
       imagesMap (images st) !! filename img = Some (data img)).
Proof.
  intros Hag. unfold agrees in Hag.
  rewrite imagesMap_galleryIndex, <- Hag.
  split; [done|]. split.
  - by rewrite dom_fmap_L, Hag, dom_galleryIndex.
  - intros Hnd img Hin.
    by rewrite lookup_fmap, Hag, (galleryIndex_lookup_NoDup _ _ Hnd Hin).
Qed.

Lemma pushed_images_are_the_stored_ones_witness :
  imagesMap (images gallery_state) = data <$> imageStore gallery_state
  ∧ dom (imagesMap (images gallery_state))
    = list_to_set (filename <$> images gallery_state)
  ∧ (NoDup (filename <$> images gallery_state) →
     ∀ img, img ∈ images gallery_state →
       imagesMap (images gallery_state) !! filename img = Some (data img)).
Proof. apply (pushed_images_are_the_stored_ones gallery_state). reflexivity. Defined.

Lemma replaceInGallery_names f newImg imgs :
  filename newImg = f →
  filename <$> replaceInGallery f newImg imgs = filename <$> imgs.
Proof.
  intros Hf. unfold replaceInGallery. rewrite <- list_fmap_compose.
  apply list_fmap_ext. intros i old _. simpl.
  destruct (String.eqb_spec (filename old) f) as [->|]; done.
Qed.

Lemma handleRegenerate_settle_names f image r st :
  filename image = f →
  filename <$> images (handleRegenerate_settle f image r st) = filename <$> images st.
Proof.
  intros Hf. destruct r as [d p|m]; simpl; [|done].
  by apply replaceInGallery_names.
Qed.

Lemma regenStep_names (w : RegenWorld) (s : RegenStep) :
  fromGallery s →
  Forall (λ p, filename p.2 = p.1) (inflight w) →
  Forall (λ p, filename p.2 = p.1) (inflight (regenStep w s))
  ∧ filename <$> images (app (regenStep w s)) = filename <$> images (app w).
Proof.
  intros Hs Hw. destruct s as [f image|r]; simpl in *.
  - unfold handleRegenerate_begin.
    destruct (_ || _); simpl; [by split|].
    split; [|done]. apply Forall_app. split; [done|]. by constructor.
  - destruct (inflight w) as [|[f image] rest] eqn:E; [by rewrite E|].
    apply Forall_cons in Hw as [Hf Hrest]. simpl in *.
    split; [done|]. by apply handleRegenerate_settle_names.
Qed.

(** X9: regeneration never adds, removes or renames a gallery entry: after
    any sequence of regenerate requests made from gallery entries (each
    under the entry's own filename) and of settlements, successful or not,
    the filenames of the gallery, position by position, are as before. *)
Theorem regeneration_keeps_gallery_names (w : RegenWorld) (steps : list RegenStep) :
  Forall fromGallery steps →
  Forall (λ p, filename p.2 = p.1) (inflight w) →
  filename <$> images (app (regenRun w steps)) = filename <$> images (app w).
Proof.
  revert w. induction steps as [|s steps IH]; intros w Hs Hw; [done|].
  apply Forall_cons in Hs as [Hs Hsteps].
  change (regenRun w (s :: steps)) with (regenRun (regenStep w s) steps).
  destruct (regenStep_names w s Hs Hw) as [Hw' Hn].
  by rewrite (IH _ Hsteps Hw'), Hn.
Qed.

Lemma regeneration_keeps_gallery_names_witness :
  filename <$> images (app (regenRun (mkRegenWorld gallery_state [])
                              [Click "CNCP1000MNAV" navy_image;
                               Settle (RegenOk "base64-navy-2" None)]))
  = filename <$> images gallery_state.
Proof.
  apply (regeneration_keeps_gallery_names (mkRegenWorld gallery_state [])
           [Click "CNCP1000MNAV" navy_image;
            Settle (RegenOk "base64-navy-2" None)]).
  - repeat constructor.
  - constructor.
Defined.

End GalleryAndStore.

(** * Properties of the Shopify CSV export *)

Section CsvEscape.

Import ShopifyCsv.

Implicit Types (s t : string) (c : ascii).

Lemma double_quotes_inj s t : double_quotes s = double_quotes t → s = t.
Proof.
  revert t. induction s as [|x r IH]; intros [|y u]; simpl.
  - done.
  - by destruct (Ascii.eqb y dquote).
  - by destruct (Ascii.eqb x dquote).
  - destruct (Ascii.eqb_spec x dquote) as [->|Hx];
      destruct (Ascii.eqb_spec y dquote) as [->|Hy].
    + intros [= H]. by rewrite (IH u H).
    + intros [= H _]. by subst.
    + intros [= H _]. by subst.
    + intros [= -> H]. by rewrite (IH u H).
Qed.

Lemma count_char_append c s t :
  count_char c (s +:+ t) = count_char c s + count_char c t.
Proof.
  induction s as [|x r IH]; [done|]. rewrite append_cons. simpl.
  rewrite IH. lia.
Qed.

Lemma count_char_double_quotes s :
  count_char dquote (double_quotes s) = 2 * count_char dquote s.
Proof.
  induction s as [|x r IH]; [done|]. simpl.
  destruct (Ascii.eqb_spec x dquote) as [->|Hx]; simpl.
  - rewrite IH. lia.
  - destruct (Ascii.eqb_spec x dquote); [done|]. rewrite IH. lia.
Qed.

Lemma includes_count c s : includes c s = false → count_char c s = 0.
Proof.
  induction s as [|x r IH]; [done|]. simpl.
  intros [Hx Hr]%orb_false_elim. rewrite Hx. by rewrite IH.
Qed.

(** X10: [csvEscape] never maps two different texts to the same field. *)
Theorem csvEscape_injective s t :
  csvEscape (Some s) = csvEscape (Some t) → s = t.
Proof.
  unfold csvEscape. simpl.
  destruct (includes dquote s || includes comma s || includes lf s
            || includes cr s) eqn:Es;
    destruct (includes dquote t || includes comma t || includes lf t
              || includes cr t) eqn:Et.
  - intros [= H]. apply append_inj_suffix in H as [H _]; [|done].
    by apply double_quotes_inj.
  - intros <-. simpl in Et. rewrite ?Ascii.eqb_refl in Et. done.
  - intros ->. simpl in Es. rewrite ?Ascii.eqb_refl in Es. done.
  - done.
Qed.

Lemma csvEscape_injective_witness : "a,b" = "a,b".
Proof. apply (csvEscape_injective "a,b" "a,b"). reflexivity. Defined.

(** X11: a field written by [csvEscape] either holds no double quote,
    comma, line feed or carriage return and is the text itself, or it
    begins and ends with a double quote; in both cases the number of double
    quotes in it is even. *)
Theorem csvEscape_field_shape (value : option string) :
  let field := csvEscape value in
  ((includes dquote field || includes comma field || includes lf field
    || includes cr field) = false ∧ field = default "" value
   ∨ ∃ body, field = String dquote (body +:+ String dquote ""))
  ∧ Nat.Even (count_char dquote field).
Proof.
  unfold csvEscape.
  destruct (includes dquote (default "" value) || _ || _ || _) eqn:E; simpl.
  - split; [right; by eexists|].
    rewrite count_char_append, count_char_double_quotes. simpl.
    exists (1 + count_char dquote (default "" value)). lia.
  - split; [by left|].
    apply orb_false_elim in E as [E _]. apply orb_false_elim in E as [E _].
    apply orb_false_elim in E as [E _].
    rewrite (includes_count _ _ E). by exists 0.
Qed.

End CsvEscape.

Section Slugify.

Import ShopifyCsv.

Implicit Types (s t : string) (c : ascii) (p : bool).

Lemma hyphen_not_slug_char : is_slug_char "-" = false.
Proof. reflexivity. Qed.

Lemma slug_char_not_hyphen c : is_slug_char c = true → Ascii.eqb c "-" = false.
Proof.
  intros H. destruct (Ascii.eqb_spec c "-") as [->|]; [|done].
  by rewrite hyphen_not_slug_char in H.
Qed.

Lemma to_lower_slug_char c : is_slug_char c = true → to_lower c = c.
Proof.
  unfold is_slug_char, to_lower. intros H.
  destruct (Nat.leb_spec 65 (nat_of_ascii c)) as [Hlo|]; [|done].
  destruct (Nat.leb_spec (nat_of_ascii c) 90) as [Hhi|]; [|done]. simpl.
  apply orb_prop in H as [H|H]; apply andb_prop in H as [Ha Hb];
    apply Nat.leb_le in Ha, Hb; lia.
Qed.

Lemma dash_runs_apart p s : dashes_apart p (dash_runs p s) = true.
Proof.
  revert p. induction s as [|c r IH]; intros p; [done|]. simpl.
  destruct (is_slug_char c) eqn:Ec.
  - simpl. by rewrite Ec.
  - destruct p; [done|]. simpl. by rewrite IH.
Qed.

Lemma drop_leading_dashes_apart p s :
  dashes_apart p s = true → dashes_apart true (drop_leading_dashes s) = true.
Proof.
  revert p. induction s as [|c r IH]; intros p; [done|]. simpl.
  destruct (is_slug_char c) eqn:Ec.
  - rewrite (slug_char_not_hyphen c Ec). simpl. by rewrite Ec.
  - intros [[Hc Hp]%andb_prop Hr]%andb_prop. rewrite Hc. by apply (IH true).
Qed.

Lemma drop_trailing_dashes_handle p s :
  dashes_apart p s = true →
  drop_trailing_dashes s = "" ∨ handle_body p (drop_trailing_dashes s) = true.
Proof.
  revert p. induction s as [|c r IH]; intros p; [by left|]. simpl.
  destruct (is_slug_char c) eqn:Ec.
  - intros Hr. rewrite (slug_char_not_hyphen c Ec). simpl. right. rewrite Ec.
    destruct (IH false Hr) as [->|H]; done.
  - intros [[Hc Hp]%andb_prop Hr]%andb_prop. rewrite Hc.
    destruct (IH true Hr) as [H|H].
    + left. by rewrite H.
    + destruct (drop_trailing_dashes r) as [|x y] eqn:E; [done|].
      right. simpl. rewrite Ec, Hc, Hp. exact H.
Qed.

Lemma handle_body_apart p s : handle_body p s = true → dashes_apart p s = true.
Proof.
  revert p. induction s as [|c r IH]; intros p; [done|]. simpl.
  destruct (is_slug_char c); [apply IH|].
  intros [H Hr]%andb_prop. by rewrite H, (IH true Hr).
Qed.

Lemma slug_char_ascii c : is_slug_char c = true → (nat_of_ascii c < 128)%nat.
Proof.
  unfold is_slug_char. intros H.
  apply orb_prop in H as [H|H]; apply andb_prop in H as [Ha Hb];
    apply Nat.leb_le in Ha, Hb; lia.
Qed.

Lemma toLowerCase_ascii_head c s :
  (nat_of_ascii c < 128)%nat →
  toLowerCase (String c s) = String (to_lower c) (toLowerCase s).
Proof.
  intros Hc.
  assert (H196 : Js.is_byte 196 c = false) by (apply Nat.eqb_neq; lia).
  assert (H226 : Js.is_byte 226 c = false) by (apply Nat.eqb_neq; lia).
  destruct s as [|c2 [|c3 r3]]; cbn [toLowerCase]; rewrite ?H196, ?H226; done.
Qed.

Lemma toLowerCase_apart p s : dashes_apart p s = true → toLowerCase s = s.
Proof.
  revert p. induction s as [|c r IH]; intros p; [done|].
  cbn [dashes_apart]. destruct (is_slug_char c) eqn:Ec.
  - intros Hr. rewrite toLowerCase_ascii_head by (by apply slug_char_ascii).
    by rewrite (to_lower_slug_char c Ec), (IH false Hr).
  - intros [[Hc Hp]%andb_prop Hr]%andb_prop.
    apply Ascii.eqb_eq in Hc as ->.
    rewrite toLowerCase_ascii_head by (change (45 < 128)%nat; lia).
    by rewrite (IH true Hr).
Qed.

Lemma dash_runs_id p s : dashes_apart p s = true → dash_runs p s = s.
Proof.
  revert p. induction s as [|c r IH]; intros p; [done|]. simpl.
  destruct (is_slug_char c) eqn:Ec.
  - intros Hr. by rewrite (IH false Hr).
  - intros [[Hc Hp]%andb_prop Hr]%andb_prop.
    apply Ascii.eqb_eq in Hc as ->. apply negb_true_iff in Hp as ->.
    by rewrite (IH true Hr).
Qed.

Lemma drop_leading_dashes_id s :
  handle_body true s = true → drop_leading_dashes s = s.
Proof.
  destruct s as [|c r]; [done|]. simpl.
  destruct (is_slug_char c) eqn:Ec; [by rewrite (slug_char_not_hyphen c Ec)|].
  by rewrite andb_false_r.
Qed.

Lemma drop_trailing_dashes_id p s :
  handle_body p s = true → drop_trailing_dashes s = s.
Proof.
  revert p. induction s as [|c r IH]; intros p; [done|]. simpl.
  destruct (is_slug_char c) eqn:Ec.
  - intros Hr. by rewrite (slug_char_not_hyphen c Ec), (IH false Hr).
  - intros [[Hc Hp]%andb_prop Hr]%andb_prop. rewrite (IH true Hr), Hc.
    destruct r; [done|]. done.
Qed.

Lemma slugify_handle_id t : is_handle t = true → slugify t = t.
Proof.
  unfold is_handle. intros [H|H]%orb_prop.
  - by apply String.eqb_eq in H as ->.
  - pose proof (handle_body_apart true t H) as Ha.
    unfold slugify. rewrite (toLowerCase_apart true t Ha).
    assert (Hf : dashes_apart false t = true).
    { destruct t as [|c r]; [done|]. simpl in *.
      destruct (is_slug_char c); [done|]. by rewrite andb_false_r in H. }
    rewrite (dash_runs_id false t Hf), (drop_leading_dashes_id t H).
    by apply (drop_trailing_dashes_id true).
Qed.

Lemma slugify_is_handle text : is_handle (slugify text) = true.
Proof.
  unfold slugify, is_handle.
  pose proof (dash_runs_apart false (toLowerCase text)) as H.
  apply drop_leading_dashes_apart in H.
  apply drop_trailing_dashes_handle in H as [-> | ->]; [done|].
  apply orb_true_r.
Qed.

(** X12: the handle [slugify] makes of any text is empty or consists of
    groups of the characters [a]-[z] and [0]-[9] separated by single
    hyphens, with no hyphen at either end; and [slugify] leaves such a
    handle as it is, so applying it twice is applying it once. *)
Theorem slugify_handle (text : string) :
  is_handle (slugify text) = true
  ∧ slugify (slugify text) = slugify text.
Proof.
  split; [apply slugify_is_handle|].
  apply slugify_handle_id, slugify_is_handle.
Qed.

End Slugify.

Section Grouping.

Import ShopifyCsv.

Implicit Types (p : Product) (k : option string)
  (groups : list (option string * list Product)) (products : list Product).

Lemma groupByProductNumber_snoc products p :
  groupByProductNumber (products ++ [p])%list =
    group_push (ProductNumber p) p (groupByProductNumber products).
Proof. unfold groupByProductNumber. by rewrite foldl_app. Qed.

Lemma group_push_keys k p groups :
  (group_push k p groups).*1 =
    if decide (k ∈ groups.*1) then groups.*1 else (groups.*1 ++ [k])%list.
Proof.
  induction groups as [|[k' vs] rest IH]; [done|].
  cbn [group_push]. destruct (decide (k' = k)) as [->|Hne];
    rewrite !fmap_cons; cbn [fst].
  - by rewrite decide_True by (by left).
  - rewrite IH. destruct (decide (k ∈ rest.*1)) as [Hin|Hout].
    + by rewrite decide_True by (by right).
    + rewrite decide_False; [done|]. intros [->|?]%elem_of_cons; done.
Qed.

Lemma firstAppearances_snoc products p :
  firstAppearances (products ++ [p])%list =
    if decide (ProductNumber p ∈ firstAppearances products)
    then firstAppearances products
    else (firstAppearances products ++ [ProductNumber p])%list.
Proof.
  unfold firstAppearances. rewrite fmap_app, reverse_app. simpl.
  destruct (decide_rel elem_of (ProductNumber p) (reverse (ProductNumber <$> products)))
    as [Hin|Hout];
    destruct (decide (ProductNumber p ∈
                reverse (remove_dups (reverse (ProductNumber <$> products)))))
    as [Hin'|Hout']; try done.
  - exfalso. apply Hout'. by rewrite elem_of_reverse, elem_of_remove_dups.
  - exfalso. apply Hout. by rewrite elem_of_reverse, elem_of_remove_dups in Hin'.
  - by rewrite reverse_cons.
Qed.

Lemma firstAppearances_NoDup products : NoDup (firstAppearances products).
Proof.
  unfold firstAppearances. rewrite reverse_Permutation. apply NoDup_remove_dups.
Qed.

Lemma elem_of_firstAppearances k products :
  k ∈ firstAppearances products ↔ ∃ p, p ∈ products ∧ ProductNumber p = k.
Proof.
  unfold firstAppearances.
  rewrite elem_of_reverse, elem_of_remove_dups, elem_of_reverse, list_elem_of_fmap.
  split; intros (p & H1 & H2); exists p; by split.
Qed.

Lemma variantsOf_snoc k products p :
  filter (λ q, ProductNumber q = k) (products ++ [p])%list =
    (filter (λ q, ProductNumber q = k) products
      ++ (if decide (ProductNumber p = k) then [p] else []))%list.
Proof.
  rewrite filter_app, filter_cons, filter_nil.
  by destruct (decide (ProductNumber p = k)).
Qed.

Lemma group_push_members k p groups products :
  ProductNumber p = k →
  NoDup groups.*1 →
  Forall (λ g, g.2 = filter (λ q, ProductNumber q = g.1) products ∧ g.2 ≠ []) groups →
  (k ∉ groups.*1 → filter (λ q, ProductNumber q = k) products = []) →
  Forall (λ g, g.2 = filter (λ q, ProductNumber q = g.1) (products ++ [p])%list
               ∧ g.2 ≠ [])
    (group_push k p groups).
Proof.
  intros Hk. induction groups as [|[k' vs] rest IH]; intros Hnd Hall Hnew; simpl.
  - constructor; [|done]. simpl.
    rewrite variantsOf_snoc, Hnew by apply not_elem_of_nil.
    destruct (decide (ProductNumber p = k)); done.
  - apply Forall_cons in Hall as [[Hvs Hne] Hall].
    apply NoDup_cons in Hnd as [Hk' Hnd]. simpl in *.
    destruct (decide (k' = k)) as [->|Hdiff].
    + constructor; simpl.
      * rewrite variantsOf_snoc, <- Hvs.
        destruct (decide (ProductNumber p = k)); [|done].
        split; [done|]. by destruct vs.
      * apply Forall_forall. intros [k'' vs''] Hin.
        rewrite Forall_forall in Hall. destruct (Hall _ Hin) as [H1 H2].
        simpl in *. split; [|done]. rewrite variantsOf_snoc.
        destruct (decide (ProductNumber p = k'')) as [He|_];
          [|by rewrite app_nil_r].
        exfalso. apply Hk'. rewrite <- Hk, He.
        apply list_elem_of_fmap. by exists (k'', vs'').
    + constructor; simpl.
      * rewrite variantsOf_snoc.
        destruct (decide (ProductNumber p = k')); [congruence|].
        by rewrite app_nil_r.
      * apply IH; [done | done |]. intros Hout. apply Hnew.
        intros [->|Hin]%elem_of_cons; done.
Qed.

Lemma group_push_concat k p groups :
  concat (group_push k p groups).*2 ≡ₚ (concat groups.*2 ++ [p])%list.
Proof.
  induction groups as [|[k' vs] rest IH]; simpl; [done|].
  destruct (decide (k' = k)); simpl.
  - rewrite <- !app_assoc. apply Permutation_app_head, Permutation_app_comm.
  - by rewrite IH, app_assoc.
Qed.

Lemma groupByProductNumber_spec products :
  (groupByProductNumber products).*1 = firstAppearances products
  ∧ Forall (λ g, g.2 = filter (λ q, ProductNumber q = g.1) products ∧ g.2 ≠ [])
      (groupByProductNumber products)
  ∧ concat (groupByProductNumber products).*2 ≡ₚ products.
Proof.
  induction products as [|p products (IHk & IHm & IHc)] using rev_ind; [done|].
  rewrite groupByProductNumber_snoc.
  split; [|split].
  - rewrite group_push_keys, firstAppearances_snoc, IHk.
    by destruct (decide (ProductNumber p ∈ firstAppearances products)).
  - apply group_push_members; [done| |done|].
    + rewrite IHk. apply firstAppearances_NoDup.
    + intros Hout. rewrite IHk in Hout.
      destruct (filter _ products) as [|q qs] eqn:E; [done|].
      exfalso. apply Hout, elem_of_firstAppearances. exists q.
      assert (Hq : q ∈ filter (λ q, ProductNumber q = ProductNumber p) products)
        by (rewrite E; by left).
      by apply list_elem_of_filter in Hq as [? ?].
  - by rewrite group_push_concat, IHc.
Qed.

(** X13: [groupByProductNumber] lists the product numbers of the
    catalogue once each, in order of first appearance; the group of a
    number holds exactly the catalogue's variants with that number, in
    catalogue order, and is never empty; the groups together hold every
    catalogue row once. *)
Theorem groupByProductNumber_groups products :
  let groups := groupByProductNumber products in
  groups.*1 = firstAppearances products
  ∧ NoDup groups.*1
  ∧ (∀ k variants, (k, variants) ∈ groups →
       variants = filter (λ p, ProductNumber p = k) products ∧ variants ≠ [])
  ∧ (∀ p, p ∈ products → ∃ variants,
       (ProductNumber p, variants) ∈ groups ∧ p ∈ variants)
  ∧ concat groups.*2 ≡ₚ products.
Proof.
  intros groups. destruct (groupByProductNumber_spec products) as (Hk & Hm & Hc).
  fold groups in Hk, Hm, Hc. rewrite Forall_forall in Hm.
  split; [done|]. split; [rewrite Hk; apply firstAppearances_NoDup|].
  split; [intros k variants Hin; apply (Hm _ Hin)|]. split; [|done].
  intros p Hp.
  assert (Hin : ProductNumber p ∈ groups.*1).
  { rewrite Hk. apply elem_of_firstAppearances. by exists p. }
  apply list_elem_of_fmap in Hin as ([k vs] & Hkeq & Hin). simpl in Hkeq. subst k.
  exists vs. split; [done|]. destruct (Hm _ Hin) as [Hvs _]. simpl in Hvs.
  rewrite Hvs. by apply list_elem_of_filter.
Qed.

Lemma imap_calls_proj (h : nat → bool) (vs l : list Product) :
  (imap (λ i v, (v, h i, vs)) l).*1.*1 = l.
Proof.
  revert h. induction l as [|x l IH]; intros h; [done|].
  rewrite imap_cons, !fmap_cons. simpl. f_equal. apply (IH (h ∘ S)).
Qed.

Lemma imap_calls_unflagged (h : nat → bool) (vs l : list Product) :
  (∀ i, h i = false) →
  filter (λ c : Product * bool * list Product, c.1.2 = true)
    (imap (λ i v, (v, h i, vs)) l) = [].
Proof.
  revert h. induction l as [|x l IH]; intros h Hh; [done|].
  rewrite imap_cons, filter_cons_False by (simpl; by rewrite Hh).
  apply (IH (h ∘ S)). intros i. apply Hh.
Qed.

Lemma imap_calls_flagged (vs l : list Product) :
  l ≠ [] →
  length (filter (λ c : Product * bool * list Product, c.1.2 = true)
            (imap (λ i v, (v, bool_decide (i = 0), vs)) l)) = 1.
Proof.
  destruct l as [|x l]; [done|]. intros _.
  rewrite imap_cons, filter_cons_True by done. simpl. f_equal.
  apply List.length_zero_iff_nil.
  apply (imap_calls_unflagged (λ i, bool_decide (S i = 0))).
  intros i. by apply bool_decide_eq_false.
Qed.

Lemma rowCalls_cons k (vs : list Product) groups :
  ((k, vs) :: groups) ≫=
    (λ '(_, variants),
       imap (λ i variant, (variant, bool_decide (i = 0), variants)) variants)
  = (imap (λ i variant, (variant, bool_decide (i = 0), vs)) vs
     ++ (groups ≫=
           (λ '(_, variants),
              imap (λ i variant, (variant, bool_decide (i = 0), variants))
                variants)))%list.
Proof. done. Qed.

Lemma rowCalls_of_groups groups :
  let calls :=
    groups ≫=
      (λ '(_, variants),
         imap (λ i variant, (variant, bool_decide (i = 0), variants)) variants) in
  calls.*1.*1 = concat groups.*2
  ∧ (Forall (λ g, g.2 ≠ []) groups →
     length (filter (λ c : Product * bool * list Product, c.1.2 = true) calls)
     = length groups)
  ∧ (∀ v flag vs, (v, flag, vs) ∈ calls →
       (∃ k, (k, vs) ∈ groups) ∧ v ∈ vs ∧ (flag = true → head vs = Some v)).
Proof.
  induction groups as [|[k vs] rest IH].
  { simpl. split; [done|]. split; [done|]. intros v flag vs H.
    by apply not_elem_of_nil in H. }
  cbv zeta in *. destruct IH as (IHp & IHf & IHm).
  rewrite rowCalls_cons. split; [|split].
  - by rewrite !fmap_app, imap_calls_proj, IHp.
  - intros [Hne Hrest]%Forall_cons. simpl in Hne.
    rewrite filter_app, length_app, (imap_calls_flagged vs vs Hne).
    by rewrite (IHf Hrest).
  - intros v flag vs' [Hin|Hin]%elem_of_app.
    + apply elem_of_lookup_imap in Hin as (i & x & [= -> -> ->] & Hx).
      split; [exists k; by left|]. split; [by eapply list_elem_of_lookup_2|].
      intros Hi%bool_decide_eq_true. subst i. by destruct vs.
    + destruct (IHm v flag vs' Hin) as ((k' & Hk') & Hv & Hflag).
      split; [exists k'; by right|]. done.
Qed.

(** X14: [generateShopifyCsv] builds one row per catalogue row.  The
    rows come group by group; each is built from a catalogue row, together
    with exactly the catalogue's variants of the same product number; and
    the product-level columns are asked for on exactly one row per product
    number, built from the first listed variant of that number. *)
Theorem rowCalls_one_per_variant products :
  let calls := rowCalls products in
  length calls = length products
  ∧ calls.*1.*1 ≡ₚ products
  ∧ length (filter (λ c : Product * bool * list Product, c.1.2 = true) calls)
    = length (firstAppearances products)
  ∧ (∀ v flag vs, (v, flag, vs) ∈ calls →
       vs = filter (λ p, ProductNumber p = ProductNumber v) products
       ∧ v ∈ vs
       ∧ (flag = true → head vs = Some v)).
Proof.
  intros calls.
  destruct (groupByProductNumber_spec products) as (Hk & Hm & Hc).
  destruct (rowCalls_of_groups (groupByProductNumber products))
    as (Hp & Hf & Hcalls).
  fold (rowCalls products) in Hp, Hf, Hcalls. fold calls in Hp, Hf, Hcalls.
  assert (Hperm : calls.*1.*1 ≡ₚ products) by (by rewrite Hp).
  split; [by rewrite <- Hperm, !length_fmap|].
  split; [done|]. split.
  - rewrite Hf, <- Hk, length_fmap; [done|].
    eapply Forall_impl; [exact Hm|]. by intros g [_ ?].
  - intros v flag vs Hin.
    destruct (Hcalls v flag vs Hin) as ((k & Hg) & Hv & Hflag).
    rewrite Forall_forall in Hm. destruct (Hm _ Hg) as [Hvs _]. simpl in Hvs.
    split; [|done]. rewrite Hvs in Hv.
    apply list_elem_of_filter in Hv as [-> _]. done.
Qed.

End Grouping.

(** * Properties of the product table *)

Section Table.

Import ProductTable.

Implicit Types (products : list Product) (s : string).

Lemma filter_index_ne_delete index from products :
  filter_index_ne index from products =
    if decide (from ≤ index)%nat then delete (index - from) products
    else products.
Proof.
  revert from. induction products as [|p rest IH]; intros from; simpl.
  - by destruct (decide (from ≤ index)%nat).
  - rewrite IH. destruct (Nat.eqb_spec from index) as [->|Hne].
    + rewrite decide_False by lia. rewrite decide_True by lia.
      by rewrite Nat.sub_diag.
    + destruct (decide (from ≤ index)%nat) as [Hle|Hgt].
      * rewrite decide_True by lia.
        replace (index - from) with (S (index - S from)) by lia. done.
      * by rewrite decide_False by lia.
Qed.

Lemma handleDelete_delete index products :
  handleDelete index products = delete index products.
Proof.
  unfold handleDelete. rewrite filter_index_ne_delete.
  rewrite decide_True by lia. by rewrite Nat.sub_0_r.
Qed.

(** X15: [handleAdd] appends one row and leaves the rows before it in
    place; [handleDelete] removes the row at the index given, moves the
    later rows up by one, and changes nothing when the index is past the
    end; deleting the row just added gives the table back. *)
Theorem table_add_delete products :
  take (length products) (handleAdd products) = products
  ∧ length (handleAdd products) = S (length products)
  ∧ handleDelete (length products) (handleAdd products) = products
  ∧ (∀ index, (length products ≤ index)%nat →
       handleDelete index products = products)
  ∧ (∀ index j, (index < length products)%nat →
       S (length (handleDelete index products)) = length products
       ∧ handleDelete index products !! j =
           products !! (if decide (j < index)%nat then j else S j)).
Proof.
  unfold handleAdd. split; [by rewrite take_app_length|].
  split; [rewrite length_app; simpl; lia|].
  split.
  { rewrite handleDelete_delete, delete_middle. by rewrite app_nil_r. }
  split.
  { intros index Hi. rewrite handleDelete_delete.
    apply list_eq. intros j. destruct (decide (j < index)%nat).
    - by rewrite list_lookup_delete_lt.
    - rewrite list_lookup_delete_ge by lia.
      rewrite !lookup_ge_None_2; [done | lia | lia]. }
  intros index j Hi. rewrite handleDelete_delete. split.
  - rewrite length_delete; [lia|]. by apply lookup_lt_is_Some_2.
  - destruct (decide (j < index)%nat).
    + by rewrite list_lookup_delete_lt.
    + by rewrite list_lookup_delete_ge by lia.
Qed.

End Table.

Section NewRow.

Import ProductTable.

Implicit Types (products : list Product) (s : string).

Lemma pretty_N_char_digit (x : N) : is_digit (pretty_N_char x) = true.
Proof. unfold pretty_N_char. by repeat case_match. Qed.

Lemma pretty_N_go_digits (x : N) s :
  string_forallb is_digit s = true →
  string_forallb is_digit (pretty_N_go x s) = true.
Proof.
  revert s. induction (N.lt_wf_0 x) as [x _ IH]; intros s Hs.
  destruct (decide (0 < x)%N) as [Hx|Hx].
  - rewrite pretty_N_go_step by done. apply IH.
    + apply N.div_lt; lia.
    + simpl. by rewrite pretty_N_char_digit, Hs.
  - assert (x = 0%N) as -> by lia. by rewrite pretty_N_go_0.
Qed.

Lemma pretty_nat_digits (n : nat) : string_forallb is_digit (pretty n) = true.
Proof.
  unfold pretty, pretty_nat, pretty, pretty_N.
  destruct (decide (N.of_nat n = 0%N)); [done|]. by apply pretty_N_go_digits.
Qed.

Lemma string_forallb_append (f : ascii → bool) s t :
  string_forallb f (s +:+ t) = string_forallb f s && string_forallb f t.
Proof.
  induction s as [|c r IH]; [done|]. rewrite append_cons. simpl.
  by rewrite IH, andb_assoc.
Qed.

Lemma padStart_zeros s :
  string_forallb is_digit s = true →
  string_forallb is_digit (padStart 3 "0" s) = true
  ∧ (3 ≤ String.length (padStart 3 "0" s))%nat.
Proof.
  intros Hs. unfold padStart.
  destruct s as [|a [|b [|c r]]]; simpl in *; try done.
  split; [done|lia].
Qed.

Lemma replace_hyphens_digits s :
  string_forallb is_digit s = true → Js.replace_hyphens s = s.
Proof.
  induction s as [|c r IH]; [done|]. simpl.
  intros [Hc Hr]%andb_prop. rewrite (IH Hr).
  destruct (Ascii.eqb_spec c "-") as [->|]; done.
Qed.

(** X16: the number [handleAdd] gives the row it appends is [PROD-]
    followed by the row count plus one in decimal, padded with zeros to at
    least three digits; it holds no other hyphen, so the key under which
    the resume computation looks for the row's image is [PROD], these
    digits, and the neutral gender code [U]. *)
Theorem new_row_key products :
  let number := padStart 3 "0" (pretty (length products + 1)) in
  ProductNumber (newProduct products) = Some ("PROD-" +:+ number)
  ∧ string_forallb is_digit number = true
  ∧ (3 ≤ String.length number)%nat
  ∧ resumeFilename (newProduct products) = "PROD" +:+ number +:+ "U".
Proof.
  intros number.
  destruct (padStart_zeros _ (pretty_nat_digits (length products + 1)))
    as [Hd Hl].
  fold number in Hd, Hl.
  split; [done|]. split; [done|]. split; [done|].
  unfold resumeFilename, newProduct. fold number. cbn [ProductNumber GenderCode ColorCode].
  change (Js.or_lit (Some ("PROD-" +:+ number)) "") with ("PROD-" +:+ number).
  change (Js.replace_hyphens ("PROD-" +:+ number))
    with ("PROD" +:+ Js.replace_hyphens number).
  by rewrite (replace_hyphens_digits _ Hd).
Qed.

End NewRow.

(** * Laws of the resume computation *)

Section ResumeLaws.

Implicit Types (C D : list string) (L : list Product).

Lemma remainingProducts_app C D L :
  remainingProducts (C ++ D)%list L =
    remainingProducts D (remainingProducts C L).
Proof.
  rewrite !remainingProducts_filter, list_filter_filter.
  apply list_filter_iff. intros p. rewrite not_elem_of_app. tauto.
Qed.

(** X17: the resume computation looks at the completed filenames as a
    set: two lists with the same members give the same result.  Recording
    more completed filenames only removes variants from the result;
    computing with two batches of filenames at once is computing with one
    after the other; and once the filenames the result asks for are
    recorded as well, nothing remains. *)
Theorem remainingProducts_laws C D L :
  (∀ C', (∀ f, f ∈ C ↔ f ∈ C') →
     remainingProducts C L = remainingProducts C' L)
  ∧ remainingProducts (C ++ D)%list L =
      remainingProducts D (remainingProducts C L)
  ∧ remainingProducts (C ++ D)%list L `sublist_of` remainingProducts C L
  ∧ remainingProducts
      (C ++ (resumeFilename <$> remainingProducts C L))%list L = [].
Proof.
  split; [|split; [|split]].
  - intros C' HC. rewrite !remainingProducts_filter.
    apply list_filter_iff. intros p. by rewrite HC.
  - apply remainingProducts_app.
  - rewrite remainingProducts_app, (remainingProducts_filter D).
    apply sublist_filter.
  - rewrite remainingProducts_app. apply remainingProducts_nil.
    intros p Hp. apply list_elem_of_fmap. by exists p.
Qed.

End ResumeLaws.
